(** * faust/worker.py: the Worker lifecycle controller

    A shallow embedding of [faust.worker.Worker] and of the few
    collaborators its methods call.  A coroutine of the source is a
    computation in an error-and-state monad over a world that records,
    in order, every call the coroutine makes on its collaborators
    (services, sensors, the process title, logging, standard output,
    the event loop).  What a collaborator answers is not decided here:
    it is read from an environment, which may also answer with an
    exception. *)

From Stdlib Require Import List String Ascii ZArith Arith Bool Lia PeanoNat.
Import ListNotations.
Local Open Scope string_scope.
Local Open Scope list_scope.
Local Open Scope nat_scope.
Set Warnings "-register-all".

(** ** Python exceptions *)

Module Py.

(** The part of the builtin exception hierarchy this file mentions. *)
Inductive exn_class : Type :=
| BaseException
| SystemExit
| KeyboardInterrupt
| Exception
| RuntimeError
| NotImplementedError
| RecursionError
| ValueError
| OSError
| IndexError.

Definition exn_class_eqb (a b : exn_class) : bool :=
  match a, b with
  | BaseException, BaseException
  | SystemExit, SystemExit
  | KeyboardInterrupt, KeyboardInterrupt
  | Exception, Exception
  | RuntimeError, RuntimeError
  | NotImplementedError, NotImplementedError
  | RecursionError, RecursionError
  | ValueError, ValueError
  | OSError, OSError
  | IndexError, IndexError => true
  | _, _ => false
  end.

(** Method resolution order of each class, itself first. *)
Definition mro (c : exn_class) : list exn_class :=
  match c with
  | BaseException => [BaseException]
  | SystemExit => [SystemExit; BaseException]
  | KeyboardInterrupt => [KeyboardInterrupt; BaseException]
  | Exception => [Exception; BaseException]
  | RuntimeError => [RuntimeError; Exception; BaseException]
  | NotImplementedError =>
      [NotImplementedError; RuntimeError; Exception; BaseException]
  | RecursionError =>
      [RecursionError; RuntimeError; Exception; BaseException]
  | ValueError => [ValueError; Exception; BaseException]
  | OSError => [OSError; Exception; BaseException]
  | IndexError => [IndexError; Exception; BaseException]
  end.

Definition issubclass (c d : exn_class) : bool :=
  existsb (exn_class_eqb d) (mro c).

(** An exception object: its class and the message it carries. *)
Record exn : Type := mk_exn { exn_cls : exn_class; exn_msg : string }.

Definition isinstance (e : exn) (c : exn_class) : bool :=
  issubclass (exn_cls e) c.

Definition exn_eqb (a b : exn) : bool :=
  exn_class_eqb (exn_cls a) (exn_cls b) && String.eqb (exn_msg a) (exn_msg b).

(** Truthiness of [loglevel: Union[str, int] = None]. *)
Inductive level : Type :=
| LNone
| LInt (z : Z)
| LStr (s : string).

Definition truthy (l : level) : bool :=
  match l with
  | LNone => false
  | LInt z => negb (Z.eqb z 0)
  | LStr s => negb (String.eqb s "")
  end.

End Py.
Import Py.

(** ** reprlib *)

Module Reprlib.

(** The values [_repr] is applied to: tuples, lists, and instances of
    classes reprlib has no special case for, given by their builtin
    [repr]. *)
Inductive pyobj : Type :=
| Tuple (xs : list pyobj)
| PList (xs : list pyobj)
| Instance (builtin_repr : string).

(** [reprlib.Repr] and its subclass in worker.py. *)
Inductive repr_class : Type :=
| Repr
| _TupleAsListRepr.

Definition maxlevel : nat := 6.
Definition maxtuple : nat := 6.
Definition maxlist : nat := 6.
Definition maxother : nat := 30.

(** [Repr.repr_instance]: the builtin repr, its middle elided when it
    is longer than [maxother]. *)
Definition repr_instance (s : string) : string :=
  if maxother <? String.length s then
    let i := (maxother - 3) / 2 in
    let j := maxother - 3 - i in
    (substring 0 i s ++ "..." ++ substring (String.length s - j) j s)%string
  else s.

(** [Repr._repr_iterable]; [sub] is [self.repr1] at [level - 1]. *)
Definition _repr_iterable (sub : pyobj -> string) (x : list pyobj)
    (level : nat) (left right : string) (maxiter : nat) (trail : string)
    : string :=
  let n := List.length x in
  if (level =? 0) && (0 <? n) then (left ++ "..." ++ right)%string
  else
    let pieces := map sub (firstn maxiter x) in
    let pieces := if maxiter <? n then pieces ++ ["..."] else pieces in
    let s := String.concat ", " pieces in
    let right := if (n =? 1) && negb (String.eqb trail "")
                 then (trail ++ right)%string else right in
    (left ++ s ++ right)%string.

Definition repr_list (sub : pyobj -> string) (x : list pyobj) (level : nat)
    : string :=
  _repr_iterable sub x level "[" "]" maxlist "".

(** [repr_tuple]: the base class writes parentheses; worker.py's
    subclass overrides it with [return self.repr_list(x, level)]. *)
Definition repr_tuple (cls : repr_class) (sub : pyobj -> string)
    (x : list pyobj) (level : nat) : string :=
  match cls with
  | Repr => _repr_iterable sub x level "(" ")" maxtuple ","
  | _TupleAsListRepr => repr_list sub x level
  end.

(** [Repr.repr1]: dispatch on the type of [x]. *)
Fixpoint repr1 (cls : repr_class) (level : nat) (x : pyobj) : string :=
  let sub :=
    match level with
    | O => fun _ : pyobj => "..."
    | S l => repr1 cls l
    end in
  match x with
  | Tuple xs => repr_tuple cls sub xs level
  | PList xs => repr_list sub xs level
  | Instance s => repr_instance s
  end.

(** [Repr.repr] and the module-level [_repr = _TupleAsListRepr().repr]. *)
Definition repr (cls : repr_class) (x : pyobj) : string :=
  repr1 cls maxlevel x.

Definition _repr (x : pyobj) : string := repr _TupleAsListRepr x.

(** Every tuple read as a list, at every depth. *)
Fixpoint as_lists (x : pyobj) : pyobj :=
  match x with
  | Tuple xs => PList (map as_lists xs)
  | PList xs => PList (map as_lists xs)
  | Instance s => Instance s
  end.

End Reprlib.
Import Reprlib.

(** ** Components and the world *)

(** A managed component.  [service_is_AppT] is [isinstance(service, AppT)];
    [service_str] and [service_repr] are what [str] and [repr] give. *)
Record ServiceT : Type := mk_service {
  service_id : nat;
  service_is_AppT : bool;
  service_str : string;
  service_repr : string
}.

Record SensorT : Type := mk_sensor { sensor_id : nat }.

Definition SensorT_eq_dec (a b : SensorT) : {a = b} + {a <> b}.
Proof. decide equality. apply Nat.eq_dec. Defined.

(** The calls a Worker makes on its collaborators. *)
Inductive call : Type :=
| c_print (s : string)
| c_setproctitle (title : string)
| c_setup_logging (lvl : level) (logfile logformat : option string)
| c_sensor_maybe_start (s : SensorT)
| c_sensor_stop (s : SensorT)
| c_add_sensor (service : ServiceT) (s : SensorT)
| c_service_maybe_start (service : ServiceT)
| c_service_stop (service : ServiceT)
| c_sleep (seconds : nat)
| c_loop_close.

(** Worker methods whose executions are counted. *)
Inductive method : Type :=
| m_on_first_start.

(** What the world records.  [Invoke] marks a call being initiated and
    [Return] or [Raised] its completion.  [Enter] and [Observe] are ghost
    marks: a counted method was entered, the while-condition of [_stats]
    read the stop flag. *)
Inductive event : Type :=
| Invoke (c : call)
| Return (c : call)
| Raised (c : call) (e : exn)
| Enter (m : method)
| Observe (should_stop : bool).

(** Coroutine objects handed to the event loop. *)
Inductive coro : Type :=
| co_stop_on_signal.

Record state : Type := mk_state {
  trace : list event;
  restart_count : nat;
  stopped : bool;
  clock : nat;
  loop_running : bool;
  loop_closed : bool;
  loop_ready : list coro
}.

(** The environment: the outcome of each collaborator call given what
    happened so far ([None]: it returns), and the instant at which some
    other task of the loop sets the stop flag, if any does. *)
Record env : Type := mk_env {
  outcome : list event -> call -> option exn;
  stop_instant : option nat
}.

(** ** The monad *)

Inductive result (A : Type) : Type :=
| Ok (a : A)
| Raise (e : exn)
| OutOfFuel.
Arguments Ok {A} a.
Arguments Raise {A} e.
Arguments OutOfFuel {A}.

Definition M (A : Type) : Type := env -> state -> state * result A.

Definition ret {A} (a : A) : M A := fun _ st => (st, Ok a).

Definition bind {A B} (m : M A) (k : A -> M B) : M B :=
  fun E st =>
    match m E st with
    | (st', Ok a) => k a E st'
    | (st', Raise e) => (st', Raise e)
    | (st', OutOfFuel) => (st', OutOfFuel)
    end.

Declare Scope py_scope.
Delimit Scope py_scope with py.
Notation "x <- m ;; k" := (bind m (fun x => k))
  (at level 61, m at next level, right associativity) : py_scope.
Notation "m ;; k" := (bind m (fun _ => k))
  (at level 61, right associativity) : py_scope.
Local Open Scope py_scope.

Definition raise {A} (e : exn) : M A := fun _ st => (st, Raise e).

Definition gets {A} (f : state -> A) : M A := fun _ st => (st, Ok (f st)).

Definition log (ev : event) (st : state) : state :=
  mk_state (trace st ++ [ev]) (restart_count st) (stopped st) (clock st)
           (loop_running st) (loop_closed st) (loop_ready st).

Definition emit (ev : event) : M unit := fun _ st => (log ev st, Ok tt).

(** A call on a collaborator: initiated, then completed as the
    environment decides. *)
Definition do_call (c : call) : M unit :=
  fun E st =>
    let st1 := log (Invoke c) st in
    match outcome E (trace st1) c with
    | None => (log (Return c) st1, Ok tt)
    | Some e => (log (Raised c e) st1, Raise e)
    end.

(** [for x in l: body(x)] *)
Fixpoint for_each {A} (l : list A) (body : A -> M unit) : M unit :=
  match l with
  | [] => ret tt
  | x :: l' => body x ;; for_each l' body
  end.

(** [try: body / except cls: handler] *)
Definition try_except {A} (body : M A) (cls : exn_class) (handler : M A)
    : M A :=
  fun E st =>
    match body E st with
    | (st', Raise e) =>
        if isinstance e cls then handler E st' else (st', Raise e)
    | r => r
    end.

(** ** State updates *)

Definition set_restart_count (n : nat) (st : state) : state :=
  mk_state (trace st) n (stopped st) (clock st)
           (loop_running st) (loop_closed st) (loop_ready st).

Definition set_stopped (b : bool) (st : state) : state :=
  mk_state (trace st) (restart_count st) b (clock st)
           (loop_running st) (loop_closed st) (loop_ready st).

Definition set_clock (t : nat) (st : state) : state :=
  mk_state (trace st) (restart_count st) (stopped st) t
           (loop_running st) (loop_closed st) (loop_ready st).

Definition set_loop_running (b : bool) (st : state) : state :=
  mk_state (trace st) (restart_count st) (stopped st) (clock st)
           b (loop_closed st) (loop_ready st).

Definition set_loop_closed (b : bool) (st : state) : state :=
  mk_state (trace st) (restart_count st) (stopped st) (clock st)
           (loop_running st) b (loop_ready st).

Definition set_loop_ready (q : list coro) (st : state) : state :=
  mk_state (trace st) (restart_count st) (stopped st) (clock st)
           (loop_running st) (loop_closed st) q.

Definition modify (f : state -> state) : M unit := fun _ st => (f st, Ok tt).

(** ** asyncio, as far as worker.py calls it

    The loop is single-threaded and cooperative: a task runs until it
    finishes or suspends, and here every task is taken to run to its end
    once it is given the processor. *)

Definition loop_closed_error : exn :=
  mk_exn RuntimeError "Event loop is closed".

Definition loop_running_error : exn :=
  mk_exn RuntimeError "This event loop is already running".

(** [asyncio.sleep(d)]: the coroutine is suspended for [d] time units.
    While it is, the other tasks of the loop run; one of them may set the
    stop flag, at the instant the environment names. *)
Definition pass_time (d : nat) : M unit :=
  fun E st =>
    let now := clock st + d in
    let flipped := match stop_instant E with
                   | Some t => t <=? now
                   | None => false
                   end in
    (set_clock now (set_stopped (stopped st || flipped) st), Ok tt).

Definition sleep (d : nat) : M unit := do_call (c_sleep d) ;; pass_time d.

(** [asyncio.ensure_future(coro, loop=loop)]: wraps the coroutine in a
    task and schedules its first step; refused on a closed loop. *)
Definition ensure_future (c : coro) : M coro :=
  fun _ st =>
    if loop_closed st then (st, Raise loop_closed_error)
    else (set_loop_ready (loop_ready st ++ [c]) st, Ok c).

(** One task run by the loop: an [Exception] it ends with is kept in the
    task object, anything else (SystemExit, KeyboardInterrupt) goes
    through the loop to whoever runs it. *)
Definition task_step (body : M unit) : M unit :=
  fun E st =>
    match body E st with
    | (st', Raise e) =>
        if isinstance e Exception then (st', Ok tt) else (st', Raise e)
    | r => r
    end.

(** [loop.run_until_complete(fut)]: refused on a closed loop and on a
    loop that is already running; otherwise the loop runs what was
    scheduled before [fut], then [fut], and hands back the result or the
    exception of [fut]. *)
Definition run_until_complete (run : coro -> M unit) (fut : coro) : M unit :=
  fun E st =>
    if loop_closed st then (st, Raise loop_closed_error)
    else if loop_running st then (st, Raise loop_running_error)
    else
      let earlier := removelast (loop_ready st) in
      let st1 := set_loop_running true (set_loop_ready [] st) in
      let '(st2, r) :=
        (for_each earlier (fun t => task_step (run t)) ;; run fut) E st1 in
      (set_loop_running false st2, r).


(** [loop.close()]; whether the loop accepts to be closed at this point
    is the environment's answer. *)
Definition loop_close : M unit :=
  do_call c_loop_close ;;
  modify (fun st => set_loop_closed true (set_loop_ready [] st)).

(** ** The base class

    faust/utils/services.py is not among the sources. *)

(** Modelled from the spec: [Service.start], missing from the sources.
    The spec has the general start bookkeeping run the [on_start] hook
    and increment the restart counter "on each completed start cycle". *)
Definition Service_start (on_start : M unit) : M unit :=
  on_start ;;
  modify (fun st => set_restart_count (S (restart_count st)) st).

(** Modelled from the spec: [Service.stop], missing from the sources.
    The spec has [stop()] run the teardown of the [on_stop] hook, and the
    stop flag go from false to true, never back, "signaling shutdown
    completion". *)
Definition Service_stop (on_stop : M unit) : M unit :=
  on_stop ;;
  modify (set_stopped true).

(** Modelled from the spec: the [should_stop] property of [Service],
    missing from the sources: it reads the stop flag. *)
Definition should_stop : M bool := gets stopped.

(** ** Worker *)

Record Worker : Type := mk_worker {
  services : list ServiceT;
  sensors : list SensorT;
  debug : bool;
  loglevel : level;
  logfile : option string;
  logformat : option string
}.

(** [Worker.__init__].  [set(sensors or [])] keeps one copy of each
    sensor; [sensors] of the record is the set in the order a [for] loop
    visits it. *)
Definition __init__ (services : list ServiceT)
    (sensors : option (list SensorT)) (debug : bool) (loglevel : level)
    (logfile logformat : option string) : Worker :=
  mk_worker services
            (nodup SensorT_eq_dec
                   (match sensors with Some l => l | None => [] end))
            debug loglevel logfile logformat.

Definition PSIDENT : string := "[Faust:Worker]".

Definition _setproctitle (info : string) : M unit :=
  do_call (c_setproctitle (PSIDENT ++ " " ++ info)%string).

Definition on_first_start (w : Worker) : M unit :=
  emit (Enter m_on_first_start) ;;
  (if truthy (loglevel w)
   then do_call (c_setup_logging (loglevel w) (logfile w) (logformat w))
   else ret tt) ;;
  for_each (sensors w) (fun sensor => do_call (c_sensor_maybe_start sensor)).

Definition on_start (w : Worker) : M unit :=
  _setproctitle "starting" ;;
  for_each (services w) (fun service =>
    for_each (sensors w) (fun sensor =>
      if service_is_AppT service
      then do_call (c_add_sensor service sensor)
      else ret tt) ;;
    _setproctitle "running" ;;
    do_call (c_service_maybe_start service)).

Definition on_stop (w : Worker) : M unit :=
  _setproctitle "stopping" ;;
  for_each (rev (services w)) (fun service =>
    do_call (c_service_stop service)) ;;
  for_each (sensors w) (fun sensor => do_call (c_sensor_stop sensor)).

Definition start (w : Worker) : M unit :=
  n <- gets restart_count ;;
  (if n =? 0 then on_first_start w else ret tt) ;;
  Service_start (on_start w).

Definition stop (w : Worker) : M unit := Service_stop (on_stop w).

Definition _stop_on_signal (w : Worker) : M unit :=
  stop w ;;
  loop_close ;;
  raise (mk_exn SystemExit "").

Definition run_coro (w : Worker) (c : coro) : M unit :=
  match c with
  | co_stop_on_signal => _stop_on_signal w
  end.

Definition _on_sigint (w : Worker) : M unit :=
  do_call (c_print "-INT- -INT- -INT- -INT- -INT- -INT-") ;;
  try_except
    (fut <- ensure_future co_stop_on_signal ;;
     run_until_complete (run_coro w) fut)
    RuntimeError
    (ret tt).

(** The tuple [self.services] as reprlib sees it. *)
Definition services_tuple (w : Worker) : pyobj :=
  Tuple (map (fun s => Instance (service_repr s)) (services w)).

(** [Worker._stats]; [fuel] bounds the number of times the while
    condition is evaluated. *)
Fixpoint _stats (w : Worker) (fuel : nat) : M unit :=
  match fuel with
  | O => fun _ st => (st, OutOfFuel)
  | S fuel' =>
      b <- should_stop ;;
      emit (Observe b) ;;
      if b then ret tt
      else
        sleep 5 ;;
        (if List.length (services w) =? 1
         then match nth_error (services w) 0 with
              | Some service => do_call (c_print (service_str service))
              | None => raise (mk_exn IndexError "tuple index out of range")
              end
         else do_call (c_print (_repr (services_tuple w)))) ;;
        _stats w fuel'
  end.

Definition _repr_info (w : Worker) : string := _repr (services_tuple w).


(** * Runs and their traces *)

(** The events of a call that returned, and of one that raised. *)
Definition call_ok (c : call) : list event := [Invoke c; Return c].

Definition call_failed (c : call) (e : exn) : list event :=
  [Invoke c; Raised c e].

(** [extend evs st]: the world [st] after the events [evs], nothing else
    changed. *)
Definition extend (evs : list event) (st : state) : state :=
  mk_state (trace st ++ evs) (restart_count st) (stopped st) (clock st)
           (loop_running st) (loop_closed st) (loop_ready st).

(** [adds_only p m]: whatever the environment and however it ends, [m]
    changes nothing of the world but its trace, and adds to it only
    events that satisfy [p]. *)
Definition adds_only {A} (p : event -> bool) (m : M A) : Prop :=
  forall E st st' r, m E st = (st', r) ->
    exists evs, st' = extend evs st /\ forallb p evs = true.

Definition title (info : string) : call :=
  c_setproctitle (PSIDENT ++ " " ++ info)%string.

(** ** Kinds of events *)

Definition is_start_invoke (ev : event) : bool :=
  match ev with
  | Invoke (c_service_maybe_start _) => true
  | _ => false
  end.

Definition is_service_start (ev : event) : bool :=
  match ev with
  | Invoke (c_service_maybe_start _)
  | Return (c_service_maybe_start _)
  | Raised (c_service_maybe_start _) _ => true
  | _ => false
  end.

Definition is_service_stop (ev : event) : bool :=
  match ev with
  | Invoke (c_service_stop _)
  | Return (c_service_stop _)
  | Raised (c_service_stop _) _ => true
  | _ => false
  end.

Definition is_sensor_stop_invoke (ev : event) : bool :=
  match ev with
  | Invoke (c_sensor_stop _) => true
  | _ => false
  end.

Definition is_setup_logging_invoke (ev : event) : bool :=
  match ev with
  | Invoke (c_setup_logging _ _ _) => true
  | _ => false
  end.

Definition is_first_start (ev : event) : bool :=
  match ev with
  | Enter m_on_first_start => true
  | _ => false
  end.



Definition is_print_invoke (ev : event) : bool :=
  match ev with
  | Invoke (c_print _) => true
  | _ => false
  end.

(** An event of a call on a component, a sensor, the process title or
    logging: what starting and stopping add to the world. *)
Definition is_lifecycle_call (c : call) : bool :=
  match c with
  | c_setproctitle _ | c_setup_logging _ _ _
  | c_sensor_maybe_start _ | c_sensor_stop _ | c_add_sensor _ _
  | c_service_maybe_start _ | c_service_stop _ => true
  | c_print _ | c_sleep _ | c_loop_close => false
  end.

Definition is_lifecycle (ev : event) : bool :=
  match ev with
  | Invoke c | Return c | Raised c _ => is_lifecycle_call c
  | Enter _ | Observe _ => false
  end.

(** The component starts of a trace, the component stops of a trace. *)
Definition service_starts (t : list event) : list event :=
  filter is_service_start t.

Definition service_stop_events (t : list event) : list event :=
  filter is_service_stop t.

(** How many times the one-time initialization was entered. *)
Definition first_starts (t : list event) : nat :=
  List.length (filter is_first_start t).


(** ** on_stop *)

Definition service_stops (l : list ServiceT) : list event :=
  flat_map (fun s => call_ok (c_service_stop s)) l.

Definition sensor_stops (l : list SensorT) : list event :=
  flat_map (fun s => call_ok (c_sensor_stop s)) l.

Definition on_stop_events (w : Worker) : list event :=
  call_ok (title "stopping")
  ++ service_stops (rev (services w))
  ++ sensor_stops (sensors w).

(** The ways [on_stop] can end, each with the events it added. *)
Inductive on_stop_run (w : Worker) : result unit -> list event -> Prop :=
| stop_run_ok :
    on_stop_run w (Ok tt) (on_stop_events w)
| stop_run_title_failed e :
    on_stop_run w (Raise e) (call_failed (title "stopping") e)
| stop_run_service_failed pre c post e :
    services w = pre ++ c :: post ->
    on_stop_run w (Raise e)
      (call_ok (title "stopping")
       ++ service_stops (rev post)
       ++ call_failed (c_service_stop c) e)
| stop_run_sensor_failed pre s post e :
    sensors w = pre ++ s :: post ->
    on_stop_run w (Raise e)
      (call_ok (title "stopping")
       ++ service_stops (rev (services w))
       ++ sensor_stops pre
       ++ call_failed (c_sensor_stop s) e).

(** ** on_start *)

Definition service_start_events (l : list ServiceT) : list event :=
  flat_map (fun c => call_ok (c_service_maybe_start c)) l.

Definition attach_calls (c : ServiceT) (l : list SensorT) : list event :=
  flat_map (fun s => call_ok (c_add_sensor c s)) l.

(** What the inner loop of [on_start] adds for the component [c]. *)
Definition attach_events (w : Worker) (c : ServiceT) : list event :=
  if service_is_AppT c then attach_calls c (sensors w) else [].

(** What one round of the outer loop adds, up to the start of [c]. *)
Definition before_start (w : Worker) (c : ServiceT) : list event :=
  attach_events w c ++ call_ok (title "running").

Definition start_block (w : Worker) (c : ServiceT) : list event :=
  before_start w c ++ call_ok (c_service_maybe_start c).

Definition on_start_events (w : Worker) : list event :=
  call_ok (title "starting") ++ flat_map (start_block w) (services w).

(** The ways one round of the outer loop can fail. *)
Inductive start_block_failed (w : Worker) (c : ServiceT) (e : exn)
    : list event -> Prop :=
| block_attach_failed pre s post :
    service_is_AppT c = true ->
    sensors w = pre ++ s :: post ->
    start_block_failed w c e
      (attach_calls c pre ++ call_failed (c_add_sensor c s) e)
| block_title_failed :
    start_block_failed w c e
      (attach_events w c ++ call_failed (title "running") e)
| block_start_failed :
    start_block_failed w c e
      (before_start w c ++ call_failed (c_service_maybe_start c) e).

(** The ways [on_start] can end, each with the events it added. *)
Inductive on_start_run (w : Worker) : result unit -> list event -> Prop :=
| start_run_ok :
    on_start_run w (Ok tt) (on_start_events w)
| start_run_title_failed e :
    on_start_run w (Raise e) (call_failed (title "starting") e)
| start_run_block_failed pre c post e evs :
    services w = pre ++ c :: post ->
    start_block_failed w c e evs ->
    on_start_run w (Raise e)
      (call_ok (title "starting") ++ flat_map (start_block w) pre ++ evs).

(** Components start in list order: when the run returned, the
    component starts it added are those of the list, in its order; and
    whatever the outcome, at the moment the start of a component is
    initiated, the starts before it are those of the components before
    it in the list, each completed. *)
Definition started_in_list_order (w : Worker) (st st' : state)
    (r : result unit) : Prop :=
  (r = Ok tt ->
   service_starts (trace st')
   = service_starts (trace st) ++ service_start_events (services w)) /\
  (forall before c after,
     trace st' = trace st ++ before ++ Invoke (c_service_maybe_start c) :: after ->
     exists pre post,
       services w = pre ++ c :: post /\
       service_starts before = service_start_events pre).

(** ** on_first_start *)

Definition logging_events (w : Worker) : list event :=
  if truthy (loglevel w)
  then call_ok (c_setup_logging (loglevel w) (logfile w) (logformat w))
  else [].

(** ** The controller's lifetime *)

Inductive op : Type :=
| op_start
| op_stop.

Definition run_op (w : Worker) (o : op) : M unit :=
  match o with
  | op_start => start w
  | op_stop => stop w
  end.

(** The caller invokes the operations one after the other; an exception
    ends the sequence. *)
Definition lifetime (w : Worker) (ops : list op) : M unit :=
  for_each ops (run_op w).

(** ** The signal handler *)

(** The call of [_on_sigint] that schedules the shutdown, the body of
    its [try]. *)
Definition schedule_shutdown (w : Worker) : M unit :=
  fut <- ensure_future co_stop_on_signal ;;
  run_until_complete (run_coro w) fut.

Definition INT_marker : string := "-INT- -INT- -INT- -INT- -INT- -INT-".

(** ** The status line *)

(** The list with the elements of the tuple [self.services]. *)
Definition services_list (w : Worker) : pyobj :=
  PList (map (fun s => Instance (service_repr s)) (services w)).

Definition status_line (w : Worker) : string :=
  match services w with
  | [c] => service_str c
  | _ => _repr (services_tuple w)
  end.

(** One round of the loop of [_stats] when nothing fails. *)
Definition report_round (w : Worker) : list event :=
  Observe false :: call_ok (c_sleep 5) ++ call_ok (c_print (status_line w)).

(** ** Concrete workers and worlds *)

Definition all_return : list event -> call -> option exn :=
  fun _ _ => None.

Definition calm : env := mk_env all_return None.

Definition the_world : state := mk_state [] 0 false 0 true false [].

Definition svc_A : ServiceT := mk_service 1 true "A" "<A>".
Definition svc_B : ServiceT := mk_service 2 false "B" "<B>".
Definition sensor_S : SensorT := mk_sensor 1.

Definition worker_AB : Worker :=
  __init__ [svc_A; svc_B] (Some [sensor_S; sensor_S]) false (LInt 0)
           None None.

Definition worker_A : Worker :=
  __init__ [svc_A] (Some [sensor_S]) false (LStr "INFO") None None.

(** ** Orders *)

(** Components stop in reverse list order and sensors after them: when
    the run returned, it added exactly the title, one completed [stop]
    per component from the last of the list to the first, then one
    completed [stop] per sensor; and whatever the outcome, at the moment
    the stop of a sensor is initiated, the component stops made are
    those of the whole list reversed, each completed. *)
Definition stopped_in_reverse_order (w : Worker) (st st' : state)
    (r : result unit) : Prop :=
  (r = Ok tt -> trace st' = trace st ++ on_stop_events w) /\
  (forall before s after,
     trace st' = trace st ++ before ++ Invoke (c_sensor_stop s) :: after ->
     service_stop_events before = service_stops (rev (services w))).

(** Sensors are attached before the start: whatever the outcome, at the
    moment the start of a component that accepts sensors is initiated,
    the last things done are the [add_sensor] of every sensor of the set
    on that component, each completed, and the title. *)
Definition attached_before_start (w : Worker) (st st' : state) : Prop :=
  forall before c after,
    trace st' = trace st ++ before ++ Invoke (c_service_maybe_start c) :: after ->
    service_is_AppT c = true ->
    (exists earlier,
       before = earlier ++ attach_calls c (sensors w)
                ++ call_ok (title "running")) /\
    (forall s, In s (sensors w) -> In (Return (c_add_sensor c s)) before).

Definition is_raised (ev : event) : bool :=
  match ev with
  | Raised _ _ => true
  | _ => false
  end.

(** Teardown fails fast: when the stop of a component raised, the run
    raises that very exception, the stop flag is as it was, and what the
    run added is the title, the completed stops of the components after
    it in the list, last to first, and its failed stop: no component
    before it in the list was stopped, and no sensor. *)
Definition stop_fails_fast (w : Worker) (st st' : state) (r : result unit)
    : Prop :=
  forall new c e,
    trace st' = trace st ++ new ->
    In (Raised (c_service_stop c) e) new ->
    r = Raise e /\
    stopped st' = stopped st /\
    (exists pre post,
       services w = pre ++ c :: post /\
       new = call_ok (title "stopping")
             ++ service_stops (rev post)
             ++ call_failed (c_service_stop c) e) /\
    (forall s, ~ In (Invoke (c_sensor_stop s)) new).

(** A world in which the stop of [svc_A] raises. *)
Definition boom : exn := mk_exn ValueError "boom".

Definition stop_of_A_raises : env :=
  mk_env (fun _ c =>
            match c with
            | c_service_stop s =>
                if service_id s =? 1 then Some boom else None
            | _ => None
            end)
         None.

(** The one-time initialization runs on a start exactly when the restart
    counter is zero. *)
Definition first_start_iff_counter_zero (w : Worker) (E : env) : Prop :=
  forall st st' r,
    start w E st = (st', r) ->
    first_starts (trace st')
    = first_starts (trace st) + (if restart_count st =? 0 then 1 else 0).

(** ** What the status reporter adds *)

Definition is_report_call (w : Worker) (c : call) : bool :=
  match c with
  | c_sleep d => d =? 5
  | c_print s => String.eqb s (status_line w)
  | _ => false
  end.

(** An event of the reporter: a reading of the stop flag, the sleep of
    one interval, or the print of the status line. *)
Definition is_report_event (w : Worker) (ev : event) : bool :=
  match ev with
  | Invoke c | Return c | Raised c _ => is_report_call w c
  | Observe _ => true
  | Enter _ => false
  end.

Definition is_observed_true (ev : event) : bool :=
  match ev with
  | Observe true => true
  | _ => false
  end.

(** Nothing of the world but the trace, the clock and the stop flag
    differs between [st] and [st']. *)
Definition same_controller (st st' : state) : Prop :=
  restart_count st' = restart_count st /\
  loop_running st' = loop_running st /\
  loop_closed st' = loop_closed st /\
  loop_ready st' = loop_ready st.

(** The world after one round of the reporter in which nothing failed. *)
Definition after_round (w : Worker) (E : env) (st : state) : state :=
  mk_state (trace st ++ report_round w)
           (restart_count st)
           (stopped st ||
            match stop_instant E with
            | Some t => t <=? clock st + 5
            | None => false
            end)
           (clock st + 5)
           (loop_running st) (loop_closed st) (loop_ready st).

(** The timer and standard output do not fail. *)
Definition reporting_works (E : env) : Prop :=
  (forall h d, outcome E h (c_sleep d) = None) /\
  (forall h s, outcome E h (c_print s) = None).

(** Each status report renders the single component directly, otherwise
    the tuple of components, which reads as the list of them does, in
    brackets. *)
Definition status_rendering (w : Worker) : Prop :=
  (forall c, services w = [c] -> status_line w = service_str c) /\
  (List.length (services w) <> 1 ->
   status_line w = _repr (services_tuple w) /\
   _repr (services_tuple w) = _repr (services_list w) /\
   exists body, status_line w = ("[" ++ body ++ "]")%string).

Definition worker_none : Worker :=
  __init__ [] None false LNone None None.

(** [reports_only w m]: whatever the environment and however it ends,
    [m] adds to the trace only events of the reporter and leaves the
    controller and the loop as they were. *)
Definition reports_only {A} (w : Worker) (m : M A) : Prop :=
  forall E st st' r, m E st = (st', r) ->
    exists new,
      trace st' = trace st ++ new /\
      forallb (is_report_event w) new = true /\
      same_controller st st'.

(** In no run of the reporter does anything follow the reading of the
    stop flag that found it true: the reporter returns there. *)
Definition silent_once_stopped (w : Worker) (E : env) : Prop :=
  forall fuel st st' r before after,
    _stats w fuel E st = (st', r) ->
    trace st' = trace st ++ before ++ Observe true :: after ->
    after = [] /\ r = Ok tt.

(** When another task sets the stop flag at the instant [t], the
    reporter returns less than one interval after [t], having made one
    round per interval until then and nothing else. *)
Definition exits_within_one_interval (w : Worker) (E : env) : Prop :=
  forall t st,
    stop_instant E = Some t -> stopped st = false -> clock st < t ->
    reporting_works E ->
    exists k,
      0 < k /\ t <= clock st + 5 * k < t + 5 /\
      forall fuel, k < fuel ->
        exists st',
          _stats w fuel E st = (st', Ok tt) /\
          clock st' = clock st + 5 * k /\
          stopped st' = true /\
          trace st' = trace st ++ List.concat (repeat (report_round w) k)
                      ++ [Observe true].

(** With the stop flag already set the reporter returns at once. *)
Definition exits_at_once (w : Worker) (E : env) : Prop :=
  forall fuel st,
    stopped st = true ->
    _stats w (S fuel) E st = (extend [Observe true] st, Ok tt).

(** ** Signals *)

Definition flag_set_at_7 : env := mk_env all_return (Some 7).


(** The claim that the handler suppresses nothing but the rejection of
    a re-entrant run of the loop. *)
Definition suppresses_only_reentrancy : Prop :=
  forall w E st st1 st2 e,
    do_call (c_print INT_marker) E st = (st1, Ok tt) ->
    schedule_shutdown w E st1 = (st2, Raise e) ->
    e <> loop_running_error ->
    _on_sigint w E st = (st2, Raise e).

(** A component whose [stop] is not implemented. *)
Definition not_implemented : exn := mk_exn NotImplementedError "stop".

Definition stop_of_A_not_implemented : env :=
  mk_env (fun _ c =>
            match c with
            | c_service_stop s =>
                if service_id s =? 1 then Some not_implemented else None
            | _ => None
            end)
         None.

(** A world in which the loop is not running. *)
Definition idle_world : state := mk_state [] 0 false 0 false false [].

(** * Further properties *)

(** ** What a trace says was called *)

Definition started_services (t : list event) : list ServiceT :=
  flat_map (fun ev => match ev with
                      | Invoke (c_service_maybe_start c) => [c]
                      | _ => []
                      end) t.

Definition stopped_services (t : list event) : list ServiceT :=
  flat_map (fun ev => match ev with
                      | Invoke (c_service_stop c) => [c]
                      | _ => []
                      end) t.

Definition started_sensors (t : list event) : list SensorT :=
  flat_map (fun ev => match ev with
                      | Invoke (c_sensor_maybe_start s) => [s]
                      | _ => []
                      end) t.

Definition stopped_sensors (t : list event) : list SensorT :=
  flat_map (fun ev => match ev with
                      | Invoke (c_sensor_stop s) => [s]
                      | _ => []
                      end) t.

Definition titles_set (t : list event) : list string :=
  flat_map (fun ev => match ev with
                      | Invoke (c_setproctitle s) => [s]
                      | _ => []
                      end) t.

(** An event of a call on a component or on the process title. *)
Definition touches_components (ev : event) : bool :=
  match ev with
  | Invoke c | Return c | Raised c _ =>
      match c with
      | c_setproctitle _ | c_add_sensor _ _
      | c_service_maybe_start _ | c_service_stop _ => true
      | _ => false
      end
  | _ => false
  end.

Definition is_stop_invoke (ev : event) : bool :=
  match ev with
  | Invoke (c_service_stop _) | Invoke (c_sensor_stop _) => true
  | _ => false
  end.

(** ** on_first_start *)

Definition sensor_starts (l : list SensorT) : list event :=
  flat_map (fun s => call_ok (c_sensor_maybe_start s)) l.

Definition setup_logging_call (w : Worker) : call :=
  c_setup_logging (loglevel w) (logfile w) (logformat w).

Definition on_first_start_events (w : Worker) : list event :=
  Enter m_on_first_start :: logging_events w ++ sensor_starts (sensors w).

(** The ways [on_first_start] can end, each with the events it added. *)
Inductive on_first_start_run (w : Worker)
    : result unit -> list event -> Prop :=
| first_run_ok :
    on_first_start_run w (Ok tt) (on_first_start_events w)
| first_run_logging_failed e :
    truthy (loglevel w) = true ->
    on_first_start_run w (Raise e)
      (Enter m_on_first_start :: call_failed (setup_logging_call w) e)
| first_run_sensor_failed pre s post e :
    sensors w = pre ++ s :: post ->
    on_first_start_run w (Raise e)
      (Enter m_on_first_start :: logging_events w
       ++ sensor_starts pre ++ call_failed (c_sensor_maybe_start s) e).

(** The sensors given to the constructor, each once. *)
Definition each_sensor_started_once (l : list SensorT) (new : list event)
    : Prop :=
  NoDup (started_sensors new) /\
  (forall s, In s (started_sensors new) <-> In s l).

(** A failing sensor start ends [start] before any component or the
    process title is touched: the run raises that very exception, the
    restart counter stays zero, and the sensors after the failing one
    are not started. *)
Definition sensor_failure_aborts_start (w : Worker) (st st' : state)
    (r : result unit) : Prop :=
  forall new s e,
    trace st' = trace st ++ new ->
    In (Raised (c_sensor_maybe_start s) e) new ->
    r = Raise e /\
    restart_count st = 0 /\ restart_count st' = 0 /\
    forallb (fun ev => negb (touches_components ev)) new = true /\
    exists pre post,
      sensors w = pre ++ s :: post /\
      started_sensors new = pre ++ [s].

(** A world in which the start of [sensor_S] raises. *)
Definition sensor_start_raises : env :=
  mk_env (fun _ c =>
            match c with
            | c_sensor_maybe_start _ => Some boom
            | _ => None
            end)
         None.

Definition is_sensor_start_raised (ev : event) : bool :=
  match ev with
  | Raised (c_sensor_maybe_start _) _ => true
  | _ => false
  end.

(** A failing component start ends the pass: the run raises that very
    exception, the restart counter is as it was, the components after
    the failing one are not started, and nothing already started is
    stopped. *)
Definition start_fails_fast (w : Worker) (st st' : state) (r : result unit)
    : Prop :=
  forall new c e,
    trace st' = trace st ++ new ->
    In (Raised (c_service_maybe_start c) e) new ->
    r = Raise e /\
    restart_count st' = restart_count st /\
    (exists earlier pre post,
       services w = pre ++ c :: post /\
       service_starts earlier = [] /\
       new = earlier ++ flat_map (start_block w) pre
             ++ before_start w c
             ++ call_failed (c_service_maybe_start c) e) /\
    forallb (fun ev => negb (is_stop_invoke ev)) new = true.

Definition is_add_sensor_invoke (ev : event) : bool :=
  match ev with
  | Invoke (c_add_sensor _ _) => true
  | _ => false
  end.

(** Only components that are [AppT] get sensors, and only the managed
    components and the sensors of the set are involved. *)
Definition attaches_only_to_apps (w : Worker) (st st' : state) : Prop :=
  forall new c s,
    trace st' = trace st ++ new ->
    In (Invoke (c_add_sensor c s)) new ->
    service_is_AppT c = true /\ In c (services w) /\ In s (sensors w).

(** A world in which the start of [svc_A] raises. *)
Definition start_of_A_raises : env :=
  mk_env (fun _ c =>
            match c with
            | c_service_maybe_start s =>
                if service_id s =? 1 then Some boom else None
            | _ => None
            end)
         None.

Definition worker_BA : Worker :=
  __init__ [svc_B; svc_A] (Some [sensor_S]) false LNone None None.

(** The text [_setproctitle] hands to [setproctitle]. *)
Definition title_text (info : string) : string :=
  (PSIDENT ++ " " ++ info)%string.

(** A failing sensor stop ends the teardown: the run raises that very
    exception, every component has been stopped, and the sensors after
    the failing one are not. *)
Definition sensor_stop_fails_fast (w : Worker) (st st' : state)
    (r : result unit) : Prop :=
  forall new s e,
    trace st' = trace st ++ new ->
    In (Raised (c_sensor_stop s) e) new ->
    r = Raise e /\
    stopped_services new = rev (services w) /\
    exists pre post,
      sensors w = pre ++ s :: post /\
      new = call_ok (title "stopping")
            ++ service_stops (rev (services w))
            ++ sensor_stops pre
            ++ call_failed (c_sensor_stop s) e.

(** A world in which the stop of [sensor_S] raises. *)
Definition sensor_stop_raises : env :=
  mk_env (fun _ c =>
            match c with
            | c_sensor_stop _ => Some boom
            | _ => None
            end)
         None.

(** A start and then a stop, both returning, of a controller never
    started before: the components started are those of the list, in
    its order, and they are stopped in the reverse order; the sensors
    started are those of the set, and they are the sensors stopped. *)
Definition stops_what_it_started (w : Worker) (new : list event) : Prop :=
  started_services new = services w /\
  stopped_services new = rev (started_services new) /\
  started_sensors new = sensors w /\
  stopped_sensors new = started_sensors new.

(** What [_stop_on_signal] does with the loop: it always raises; it
    calls [loop.close()] only once the whole teardown has returned; when
    that call returns the loop is closed, nothing is left scheduled and
    the exception is SystemExit; otherwise the loop is as it was. *)
Definition closes_after_teardown (w : Worker) (st st' : state)
    (r : result unit) (new : list event) : Prop :=
  (exists e, r = Raise e) /\
  (In (Invoke c_loop_close) new ->
   exists tail, new = on_stop_events w ++ Invoke c_loop_close :: tail) /\
  (In (Return c_loop_close) new ->
   r = Raise (mk_exn SystemExit "") /\
   loop_closed st' = true /\ loop_ready st' = []) /\
  (~ In (Return c_loop_close) new ->
   loop_closed st' = loop_closed st /\ loop_ready st' = loop_ready st).

(** A world in which the loop refuses to be closed. *)
Definition close_refused : env :=
  mk_env (fun _ c =>
            match c with
            | c_loop_close =>
                Some (mk_exn RuntimeError "Cannot close a running event loop")
            | _ => None
            end)
         None.

(** No other task ever sets the stop flag. *)
Definition never_stopped : env := mk_env all_return None.

(** What a delivery of the signal leaves behind while the loop runs:
    the handler stops nothing itself; when it returns, the shutdown task
    it created stays scheduled on the loop, unless the loop is closed;
    when its [print] raises it has scheduled nothing. *)
Definition schedules_a_shutdown (st st' : state) (r : result unit) : Prop :=
  stopped st' = stopped st /\
  loop_closed st' = loop_closed st /\
  loop_ready st'
  = match r with
    | Ok _ => if loop_closed st then loop_ready st
              else loop_ready st ++ [co_stop_on_signal]
    | _ => loop_ready st
    end.

(** While no task sets the stop flag the reporter goes on for ever, one
    round per interval: whatever the number of rounds allowed, it has
    not returned after them. *)
Definition reports_for_ever (w : Worker) (E : env) (st : state) : Prop :=
  forall fuel,
    exists st',
      _stats w fuel E st = (st', OutOfFuel) /\
      clock st' = clock st + 5 * fuel /\
      stopped st' = false /\
      trace st' = trace st ++ List.concat (repeat (report_round w) fuel).

(** The representations of the components, each as reprlib renders an
    instance. *)
Definition component_reprs (w : Worker) : list string :=
  map (fun s => repr_instance (service_repr s)) (services w).

(** A failure inside the reporter ends it: the run raises that very
    exception, and the failed call is the last thing it did. *)
Definition report_fails_fast (st st' : state) (r : result unit) : Prop :=
  forall new c e,
    trace st' = trace st ++ new ->
    In (Raised c e) new ->
    r = Raise e /\ exists before, new = before ++ [Raised c e].

(** A world in which standard output is closed. *)
Definition stdout_closed : env :=
  mk_env (fun _ c =>
            match c with
            | c_print _ => Some (mk_exn OSError "Bad file descriptor")
            | _ => None
            end)
         None.

(** The handler entered on an idle loop with nothing scheduled, when
    [loop.close()] is refused with a RuntimeError: the teardown has been
    made in full, the refusal is swallowed with the rest, and the
    handler returns normally, the loop open and no SystemExit raised. *)
Definition refused_close_is_swallowed (w : Worker) (st st' : state)
    (r : result unit) : Prop :=
  forall new e,
    trace st' = trace st ++ new ->
    In (Raised c_loop_close e) new ->
    isinstance e RuntimeError = true ->
    r = Ok tt /\
    loop_closed st' = false /\
    stopped_services new = rev (services w) /\
    stopped_sensors new = sensors w.

(** ** Attachment, made *)

(** The attachment is made: a run that returned added, after events
    that touch no component, exactly the events of [on_start]: the
    title, then for every component of the list, in order, the
    completed [add_sensor] of every sensor of the set when the component
    is an [AppT], the title, and the completed start.  So every sensor
    was attached to every such component, and every component
    started. *)
Definition attachment_made (w : Worker) (st st' : state) : Prop :=
  exists earlier,
    trace st' = trace st ++ earlier ++ on_start_events w /\
    forallb (fun ev => negb (touches_components ev)) earlier = true /\
    (forall c, In c (services w) ->
       In (Invoke (c_service_maybe_start c)) (on_start_events w) /\
       (service_is_AppT c = true ->
        forall s, In s (sensors w) ->
          In (Invoke (c_add_sensor c s)) (on_start_events w) /\
          In (Return (c_add_sensor c s)) (on_start_events w))).

(** Sensors are attached, and before the start: what
    [attached_before_start] says of every run, and the attachment made
    in the runs that return. *)
Definition sensors_attached (w : Worker) (st st' : state) (r : result unit)
    : Prop :=
  attached_before_start w st st' /\
  (r = Ok tt -> attachment_made w st st').

(** ** The reports made *)

(** The events of one status report of [text]: the flag read unset, the
    completed sleep of five seconds, the completed print of [text]. *)
Definition report_of (text : string) : list event :=
  Observe false :: call_ok (c_sleep 5) ++ call_ok (c_print text).

(** [reports w text]: the Status Reporter prints [text] after every
    five seconds of sleep, and prints nothing else.  While the timer and
    standard output work, a round entered with the flag unset adds the
    report of [text] before anything else; a run in which another task
    sets the flag at instant [t] returns having made one report of
    [text] per interval begun before [t], and nothing more; and in every
    run, failed or not, whatever is printed is [text]. *)
Definition reports (w : Worker) (text : string) : Prop :=
  (forall fuel E st st' r,
     reporting_works E -> stopped st = false ->
     _stats w (S fuel) E st = (st', r) ->
     exists rest, trace st' = trace st ++ report_of text ++ rest) /\
  (forall E t k st fuel,
     stop_instant E = Some t -> reporting_works E -> stopped st = false ->
     clock st + 5 * k < t -> t <= clock st + 5 * S k -> S k < fuel ->
     exists st',
       _stats w fuel E st = (st', Ok tt) /\
       trace st' = trace st ++ List.concat (repeat (report_of text) (S k))
                   ++ [Observe true]) /\
  (forall fuel E st st' r s before after,
     _stats w fuel E st = (st', r) ->
     trace st' = trace st ++ before ++ Invoke (c_print s) :: after ->
     s = text).

(** What the Status Reporter prints: the single component itself when
    exactly one is managed, otherwise the tuple of components as
    [_repr] renders it, which is as it renders the list of them, in
    brackets. *)
Definition status_reports (w : Worker) : Prop :=
  (forall c, services w = [c] -> reports w (service_str c)) /\
  (List.length (services w) <> 1 ->
   reports w (_repr (services_tuple w)) /\
   _repr (services_tuple w) = _repr (services_list w) /\
   exists body, _repr (services_tuple w) = ("[" ++ body ++ "]")%string).

(** ** Two deliveries of the signal *)



(** ** The one-time initialization over a lifetime *)

Definition is_initialization_call (c : call) : bool :=
  match c with
  | c_setup_logging _ _ _ | c_sensor_maybe_start _ => true
  | _ => false
  end.

(** What the one-time initialization does: it is entered, it
    configures logging, it starts sensors. *)
Definition is_initialization (ev : event) : bool :=
  match ev with
  | Enter m_on_first_start => true
  | Invoke c | Return c | Raised c _ => is_initialization_call c
  | Observe _ => false
  end.

Definition initialization (t : list event) : list event :=
  filter is_initialization t.

(** The caller makes the calls one after the other, each in the world
    the previous one left, whether it returned or raised. *)
Fixpoint attempts (w : Worker) (ops : list op) (E : env) (st : state)
    : state :=
  match ops with
  | [] => st
  | o :: ops' => attempts w ops' E (fst (run_op w o E st))
  end.

(** The claim that the one-time initialization runs once in the
    lifetime of a controller and never again on a later start: whatever
    calls are made on a new controller, it is entered once at most. *)
Definition runs_once_in_a_lifetime : Prop :=
  forall w E ops st,
    restart_count st = 0 ->
    first_starts (trace (attempts w ops E st)) <= first_starts (trace st) + 1.

Definition sensor_T : SensorT := mk_sensor 2.

Definition worker_ST : Worker :=
  __init__ [svc_A] (Some [sensor_S; sensor_T]) false (LStr "INFO")
           None None.

(** The start of the sensor T fails the first time it is attempted,
    and only then. *)
Definition sensor_T_fails_once : env :=
  mk_env (fun h c =>
            match c with
            | c_sensor_maybe_start s =>
                if (sensor_id s =? 2)
                   && negb (existsb is_sensor_start_raised h)
                then Some boom else None
            | _ => None
            end)
         None.

(** The guard of [start]: with the counter at zero the call begins with
    a run of the one-time initialization, which is entered, configures
    logging when the level is truthy and starts the sensors one by one,
    as [on_first_start_run] lists; nothing after it in the call belongs
    to the initialization; and the call returns only when that run
    returned.  With the counter not at zero nothing the call does
    belongs to the initialization. *)
Definition initialization_gated (w : Worker) (E : env) : Prop :=
  forall st st' r,
    start w E st = (st', r) ->
    exists new,
      trace st' = trace st ++ new /\
      if restart_count st =? 0
      then exists r1 evs0 rest,
             new = evs0 ++ rest /\
             on_first_start_run w r1 evs0 /\
             initialization rest = [] /\
             (r = Ok tt -> r1 = Ok tt)
      else initialization new = [].

(** The counter counts the starts that completed: a start that raised
    leaves it as it was. *)
Definition counts_completed_starts (w : Worker) (E : env) : Prop :=
  forall st st' r,
    start w E st = (st', r) ->
    (r = Ok tt -> restart_count st' = S (restart_count st)) /\
    (r <> Ok tt -> restart_count st' = restart_count st).

(** After a start that returned, whatever calls follow, returning or
    not, nothing of the one-time initialization is done again. *)
Definition never_again_after_a_completed_start (w : Worker) (E : env)
    : Prop :=
  forall st st',
    start w E st = (st', Ok tt) ->
    forall ops,
      initialization (trace (attempts w ops E st'))
      = initialization (trace st').

(** When the first start of a new controller returns, the one-time
    initialization is done exactly once in its lifetime: one entry, one
    configuration of logging when the level is truthy, one start of
    every sensor, whatever calls follow. *)
Definition once_when_the_first_start_completes (w : Worker) (E : env)
    : Prop :=
  forall st st',
    restart_count st = 0 ->
    start w E st = (st', Ok tt) ->
    forall ops,
      initialization (trace (attempts w ops E st'))
      = initialization (trace st) ++ on_first_start_events w.

(** The same over a sequence of calls that all return and has a start
    among them. *)
Definition once_when_every_call_completes (w : Worker) (E : env) : Prop :=
  forall ops st st',
    restart_count st = 0 ->
    lifetime w ops E st = (st', Ok tt) ->
    In op_start ops ->
    initialization (trace st')
    = initialization (trace st) ++ on_first_start_events w.

(** After a first start that raised, the next start begins with a run
    of the one-time initialization again. *)
Definition again_after_a_failed_start (w : Worker) (E : env) : Prop :=
  forall st st1 r1 st2 r2,
    restart_count st = 0 ->
    start w E st = (st1, r1) -> r1 <> Ok tt ->
    start w E st1 = (st2, r2) ->
    first_starts (trace st2) = first_starts (trace st) + 2 /\
    exists r' evs0 rest,
      trace st2 = trace st1 ++ evs0 ++ rest /\
      on_first_start_run w r' evs0.

(** * Proofs *)

Lemma extend_nil st : extend [] st = st.
Proof. destruct st; unfold extend; simpl. now rewrite app_nil_r. Qed.

Lemma extend_extend a b st : extend b (extend a st) = extend (a ++ b) st.
Proof. unfold extend; simpl. now rewrite app_assoc. Qed.

Lemma trace_extend evs st : trace (extend evs st) = trace st ++ evs.
Proof. reflexivity. Qed.

Lemma do_call_cases c E st st' r :
  do_call c E st = (st', r) ->
  (r = Ok tt /\ st' = extend (call_ok c) st) \/
  (exists e, r = Raise e /\ st' = extend (call_failed c e) st).
Proof.
  unfold do_call. intros H.
  destruct (outcome E (trace (log (Invoke c) st)) c) as [e|];
    inversion H; subst; clear H.
  - right. exists e. split; [reflexivity|].
    unfold log, extend, call_failed; simpl. now rewrite <- app_assoc.
  - left. split; [reflexivity|].
    unfold log, extend, call_ok; simpl. now rewrite <- app_assoc.
Qed.

(** A loop whose body, each time round, either returns having added
    [ok_evs x] or raises having added events that satisfy [failed x]:
    the loop returns after every body returned, or raises what the
    first failing body raised, the later items never visited. *)
Lemma for_each_cases {A} (body : A -> M unit) (ok_evs : A -> list event)
    (failed : A -> exn -> list event -> Prop) :
  (forall x E st st' r, body x E st = (st', r) ->
     (r = Ok tt /\ st' = extend (ok_evs x) st) \/
     (exists e evs, r = Raise e /\ st' = extend evs st /\ failed x e evs)) ->
  forall l E st st' r, for_each l body E st = (st', r) ->
     (r = Ok tt /\ st' = extend (flat_map ok_evs l) st) \/
     (exists pre x post e evs,
        l = pre ++ x :: post /\ r = Raise e /\
        st' = extend (flat_map ok_evs pre ++ evs) st /\ failed x e evs).
Proof.
  intros Hbody l. induction l as [|x l IH]; intros E st st' r H.
  - inversion H; subst. left. split; [reflexivity|].
    simpl. now rewrite extend_nil.
  - simpl in H. unfold bind in H.
    destruct (body x E st) as [st1 r1] eqn:Hb.
    apply Hbody in Hb.
    destruct Hb as [[-> ->] | (e & evs & -> & -> & Hf)].
    + apply IH in H.
      destruct H as [[-> ->] | (pre & y & post & e & evs & -> & -> & -> & Hf)].
      * left. split; [reflexivity|]. simpl. now rewrite extend_extend.
      * right. exists (x :: pre), y, post, e, evs.
        repeat split; try assumption.
        rewrite extend_extend. simpl. now rewrite app_assoc.
    + inversion H; subst. right. exists [], x, l, e, evs.
      repeat split; assumption.
Qed.

(** The same for a loop whose body is a single call. *)
Lemma for_each_call_cases {A} (f : A -> call) l E st st' r :
  for_each l (fun x => do_call (f x)) E st = (st', r) ->
  (r = Ok tt /\ st' = extend (flat_map (fun x => call_ok (f x)) l) st) \/
  (exists pre x post e,
     l = pre ++ x :: post /\ r = Raise e /\
     st' = extend (flat_map (fun x => call_ok (f x)) pre
                   ++ call_failed (f x) e) st).
Proof.
  intros H.
  apply (for_each_cases (fun x => do_call (f x)) (fun x => call_ok (f x))
           (fun x e evs => evs = call_failed (f x) e)) in H.
  - destruct H as [H | (pre & x & post & e & evs & Hl & Hr & Hst & ->)].
    + now left.
    + right. now exists pre, x, post, e.
  - intros x E0 s s' r0 Hc. apply do_call_cases in Hc.
    destruct Hc as [Hc | (e & -> & ->)]; [now left|].
    right. now exists e, (call_failed (f x) e).
Qed.

Lemma on_stop_runs w E st st' r :
  on_stop w E st = (st', r) ->
  exists evs, st' = extend evs st /\ on_stop_run w r evs.
Proof.
  unfold on_stop, _setproctitle, bind. intros H.
  destruct (do_call _ E st) as [st1 r1] eqn:H1.
  apply do_call_cases in H1.
  destruct H1 as [[-> ->] | (e & -> & ->)].
  2:{ inversion H; subst. eexists; split; [reflexivity|].
      apply stop_run_title_failed. }
  destruct (for_each (rev (services w)) _ E _) as [st2 r2] eqn:H2.
  apply for_each_call_cases in H2.
  destruct H2 as [[-> ->] | (pre & c & post & e & Hl & -> & ->)].
  2:{ inversion H; subst. rewrite extend_extend.
      eexists; split; [reflexivity|].
      assert (Hs : services w = rev post ++ c :: rev pre).
      { rewrite <- (rev_involutive (services w)), Hl, rev_app_distr.
        simpl. now rewrite <- app_assoc. }
      pose proof (stop_run_service_failed w (rev post) c (rev pre) e Hs) as R.
      unfold service_stops in R. rewrite rev_involutive in R. exact R. }
  apply for_each_call_cases in H.
  destruct H as [[-> ->] | (pre & s & post & e & Hl & -> & ->)].
  - rewrite !extend_extend. eexists; split; [reflexivity|].
    apply stop_run_ok.
  - rewrite !extend_extend. eexists; split; [reflexivity|].
    exact (stop_run_sensor_failed w pre s post e Hl).
Qed.


Lemma for_each_skip {A} (l : list A) E st :
  for_each l (fun _ => ret tt) E st = (st, Ok tt).
Proof. induction l as [|x l IH]; simpl; [reflexivity|]. unfold bind; simpl. apply IH. Qed.

(** One round of the outer loop of [on_start]. *)
Lemma start_body_cases w c E st st' r :
  (for_each (sensors w) (fun sensor =>
     if service_is_AppT c
     then do_call (c_add_sensor c sensor)
     else ret tt) ;;
   _setproctitle "running" ;;
   do_call (c_service_maybe_start c)) E st = (st', r) ->
  (r = Ok tt /\ st' = extend (start_block w c) st) \/
  (exists e evs, r = Raise e /\ st' = extend evs st /\
                 start_block_failed w c e evs).
Proof.
  unfold bind, _setproctitle. intros H.
  destruct (for_each (sensors w) _ E st) as [st1 r1] eqn:H1.
  assert (Hin : (r1 = Ok tt /\ st1 = extend (attach_events w c) st) \/
                (exists e evs, r1 = Raise e /\ st1 = extend evs st /\
                               start_block_failed w c e evs)).
  { unfold attach_events. destruct (service_is_AppT c) eqn:Happ.
    - apply for_each_call_cases in H1.
      destruct H1 as [[-> ->] | (pre & s & post & e & Hl & -> & ->)].
      + now left.
      + right. eexists _, _. split; [reflexivity|]. split; [reflexivity|].
        now apply block_attach_failed with (post := post).
    - rewrite for_each_skip in H1. inversion H1; subst.
      left. split; [reflexivity|]. now rewrite extend_nil. }
  destruct Hin as [[-> ->] | (e & evs & -> & -> & Hf)].
  2:{ inversion H; subst. right. now exists e, evs. }
  destruct (do_call (c_setproctitle _) E _) as [st2 r2] eqn:H2.
  apply do_call_cases in H2.
  destruct H2 as [[-> ->] | (e & -> & ->)].
  2:{ inversion H; subst. right. rewrite extend_extend.
      eexists _, _. split; [reflexivity|]. split; [reflexivity|].
      apply block_title_failed. }
  apply do_call_cases in H.
  destruct H as [[-> ->] | (e & -> & ->)].
  - left. split; [reflexivity|]. rewrite !extend_extend.
    unfold start_block, before_start. now rewrite <- ?app_assoc.
  - right.
    exists e, (before_start w c ++ call_failed (c_service_maybe_start c) e).
    split; [reflexivity|]. split; [|apply block_start_failed].
    rewrite !extend_extend. unfold before_start. now rewrite <- ?app_assoc.
Qed.

Lemma on_start_runs w E st st' r :
  on_start w E st = (st', r) ->
  exists evs, st' = extend evs st /\ on_start_run w r evs.
Proof.
  unfold on_start. unfold bind at 1. unfold _setproctitle at 1. intros H.
  destruct (do_call _ E st) as [st1 r1] eqn:H1.
  apply do_call_cases in H1.
  destruct H1 as [[-> ->] | (e & -> & ->)].
  2:{ inversion H; subst. eexists; split; [reflexivity|].
      apply start_run_title_failed. }
  apply (for_each_cases _ (start_block w) (start_block_failed w)) in H.
  - destruct H as [[-> ->] | (pre & c & post & e & evs & Hl & -> & -> & Hf)].
    + rewrite extend_extend. eexists; split; [reflexivity|].
      apply start_run_ok.
    + rewrite extend_extend. eexists; split; [reflexivity|].
      exact (start_run_block_failed w pre c post e evs Hl Hf).
  - intros c E0 s s' r0 Hb. eapply start_body_cases. exact Hb.
Qed.

(** ** Lists of events *)

Lemma filter_none {X} (p : X -> bool) l :
  forallb (fun x => negb (p x)) l = true -> filter p l = [].
Proof.
  induction l as [|x l IH]; simpl; [reflexivity|].
  intros H. apply andb_true_iff in H. destruct H as [Hx Hl].
  apply negb_true_iff in Hx. rewrite Hx. now apply IH.
Qed.

Lemma forallb_flat_map {X Y} (p : Y -> bool) (f : X -> list Y) l :
  (forall x, forallb p (f x) = true) -> forallb p (flat_map f l) = true.
Proof.
  intros H. induction l as [|x l IH]; simpl; [reflexivity|].
  rewrite forallb_app, H, IH. reflexivity.
Qed.

(** No element of [l] satisfies [p], so [l] cannot be cut at one. *)
Lemma no_cut {X} (p : X -> bool) l before z after :
  forallb (fun x => negb (p x)) l = true -> p z = true ->
  l = before ++ z :: after -> False.
Proof.
  intros Hl Hz ->. rewrite forallb_app in Hl. simpl in Hl.
  rewrite Hz in Hl. simpl in Hl. rewrite andb_false_r in Hl. discriminate.
Qed.

(** [x] is the first element after the [p]-free [A]: a cut at an
    element that satisfies [p] is at [x], or after it. *)
Lemma cut_after {X} (p : X -> bool) A x rest before z after :
  forallb (fun y => negb (p y)) A = true -> p z = true ->
  A ++ x :: rest = before ++ z :: after ->
  (before = A /\ x = z /\ after = rest) \/
  (exists b, before = A ++ x :: b /\ rest = b ++ z :: after).
Proof.
  revert before. induction A as [|a A IH]; intros before HA Hz H.
  - destruct before as [|y b]; simpl in H; injection H as -> ->.
    + now left.
    + right. now exists b.
  - simpl in HA. apply andb_true_iff in HA. destruct HA as [Ha HA].
    destruct before as [|y b]; simpl in H; injection H as -> H.
    + rewrite Hz in Ha. discriminate.
    + destruct (IH b HA Hz H) as [(-> & -> & ->) | (b' & -> & ->)].
      * now left.
      * right. now exists b'.
Qed.

(** A cut of [l1 ++ l2] at an element that satisfies [p], when [l1] has
    none, is a cut of [l2]. *)
Lemma cut_second {X} (p : X -> bool) l1 l2 before z after :
  forallb (fun y => negb (p y)) l1 = true -> p z = true ->
  l1 ++ l2 = before ++ z :: after ->
  exists b, before = l1 ++ b /\ l2 = b ++ z :: after.
Proof.
  revert before. induction l1 as [|a l1 IH]; intros before H1 Hz H.
  - now exists before.
  - simpl in H1. apply andb_true_iff in H1. destruct H1 as [Ha H1].
    destruct before as [|y b]; simpl in H; injection H as -> H.
    + rewrite Hz in Ha. discriminate.
    + destruct (IH b H1 Hz H) as (b' & -> & ->). now exists b'.
Qed.

(** ** What a computation adds to the world *)

Lemma adds_only_ret {A} p (a : A) : adds_only p (ret a).
Proof.
  intros E st st' r H. inversion H; subst. exists [].
  now rewrite extend_nil.
Qed.

Lemma adds_only_emit p ev : p ev = true -> adds_only p (emit ev).
Proof.
  intros Hp E st st' r H. inversion H; subst. exists [ev].
  split; [reflexivity|]. simpl. now rewrite Hp.
Qed.

Lemma adds_only_do_call p c :
  p (Invoke c) = true -> p (Return c) = true ->
  (forall e, p (Raised c e) = true) ->
  adds_only p (do_call c).
Proof.
  intros Hi Hr He E st st' r H. apply do_call_cases in H.
  destruct H as [[-> ->] | (e & -> & ->)]; eexists; (split; [reflexivity|]);
    simpl; now rewrite Hi, ?Hr, ?He.
Qed.

Lemma adds_only_bind {A B} p (m : M A) (k : A -> M B) :
  adds_only p m -> (forall a, adds_only p (k a)) -> adds_only p (bind m k).
Proof.
  intros Hm Hk E st st' r H. unfold bind in H.
  destruct (m E st) as [st1 r1] eqn:H1.
  apply Hm in H1. destruct H1 as (evs1 & -> & Hp1).
  destruct r1 as [a|e|].
  - apply Hk in H. destruct H as (evs2 & -> & Hp2).
    exists (evs1 ++ evs2). rewrite extend_extend, forallb_app, Hp1, Hp2.
    now split.
  - inversion H; subst. now exists evs1.
  - inversion H; subst. now exists evs1.
Qed.

Lemma adds_only_for_each {A} p (l : list A) body :
  (forall x, adds_only p (body x)) -> adds_only p (for_each l body).
Proof.
  intros Hb. induction l as [|x l IH]; simpl.
  - apply adds_only_ret.
  - apply adds_only_bind; [apply Hb | intros _; apply IH].
Qed.

Lemma adds_only_if {A} p (b : bool) (m1 m2 : M A) :
  adds_only p m1 -> adds_only p m2 -> adds_only p (if b then m1 else m2).
Proof. now destruct b. Qed.

Ltac adds_only_calls :=
  repeat first
    [ apply adds_only_bind; [|intros ?]
    | apply adds_only_for_each; intros ?
    | apply adds_only_if
    | apply adds_only_ret
    | apply adds_only_emit; reflexivity
    | apply adds_only_do_call; [reflexivity | reflexivity | intros ?; reflexivity] ].

(** Starting and stopping add only lifecycle calls. *)
Lemma on_start_adds w : adds_only is_lifecycle (on_start w).
Proof. unfold on_start, _setproctitle. adds_only_calls. Qed.

Lemma on_stop_adds w : adds_only is_lifecycle (on_stop w).
Proof. unfold on_stop, _setproctitle. adds_only_calls. Qed.

(** The one-time initialization starts no component. *)
Lemma on_first_start_no_service_start w :
  adds_only (fun ev => negb (is_service_start ev)) (on_first_start w).
Proof. unfold on_first_start. adds_only_calls. Qed.

(** ** Cutting the trace of on_start at the start of a component *)

Lemma attach_calls_no_start c l :
  forallb (fun ev => negb (is_start_invoke ev)) (attach_calls c l) = true.
Proof. apply forallb_flat_map. reflexivity. Qed.

Lemma before_start_no_start w c :
  forallb (fun ev => negb (is_start_invoke ev)) (before_start w c) = true.
Proof.
  unfold before_start, attach_events. rewrite forallb_app.
  destruct (service_is_AppT c); [rewrite attach_calls_no_start|]; reflexivity.
Qed.

Lemma blocks_cut w l tail before c after :
  flat_map (start_block w) l ++ tail
  = before ++ Invoke (c_service_maybe_start c) :: after ->
  (exists pre post,
     l = pre ++ c :: post /\
     before = flat_map (start_block w) pre ++ before_start w c) \/
  (exists b,
     before = flat_map (start_block w) l ++ b /\
     tail = b ++ Invoke (c_service_maybe_start c) :: after).
Proof.
  revert before. induction l as [|x l IH]; intros before H.
  - right. now exists before.
  - simpl in H. unfold start_block at 1 in H. unfold call_ok in H.
    rewrite <- !app_assoc in H. simpl in H.
    apply (cut_after is_start_invoke) in H;
      [| apply before_start_no_start | reflexivity].
    destruct H as [(-> & Hx & ->) | (b & -> & H)].
    + injection Hx as ->. left. now exists [], l.
    + destruct b as [|y b]; simpl in H; [discriminate|].
      injection H as <- H. apply IH in H.
      destruct H as [(pre & post & -> & ->) | (b' & -> & ->)].
      * left. exists (x :: pre), post. split; [reflexivity|].
        simpl. unfold start_block at 2, call_ok.
        rewrite <- !app_assoc. reflexivity.
      * right. exists b'. split; [|reflexivity].
        simpl. unfold start_block at 2, call_ok.
        rewrite <- !app_assoc. reflexivity.
Qed.

(** Whatever the outcome of [on_start], what it added before it
    initiated the start of a component is: the title, the complete
    rounds of the components before it in the list, and the attachment
    of every sensor to it when it accepts sensors. *)
Lemma on_start_cut w r evs before c after :
  on_start_run w r evs ->
  evs = before ++ Invoke (c_service_maybe_start c) :: after ->
  exists pre post,
    services w = pre ++ c :: post /\
    before = call_ok (title "starting")
             ++ flat_map (start_block w) pre ++ before_start w c.
Proof.
  intros Hrun H. destruct Hrun as [|e|pre0 c0 post0 e fevs Hl Hf].
  - unfold on_start_events in H.
    apply (cut_second is_start_invoke) in H; [|reflexivity|reflexivity].
    destruct H as (b & -> & H).
    rewrite <- (app_nil_r (flat_map _ _)) in H. apply blocks_cut in H.
    destruct H as [(pre & post & Hs & ->) | (b' & _ & H)].
    + now exists pre, post.
    + now destruct b'.
  - exfalso. revert H. apply (no_cut is_start_invoke); reflexivity.
  - apply (cut_second is_start_invoke) in H; [|reflexivity|reflexivity].
    destruct H as (b & -> & H). apply blocks_cut in H.
    destruct H as [(pre & post & -> & ->) | (b' & -> & H)].
    + exists pre, (post ++ c0 :: post0). split; [|reflexivity].
      rewrite Hl, <- app_assoc. reflexivity.
    + destruct Hf as [p s q Happ Hs | | ].
      * exfalso. revert H. apply (no_cut is_start_invoke); [|reflexivity].
        rewrite forallb_app, attach_calls_no_start. reflexivity.
      * exfalso. revert H. apply (no_cut is_start_invoke); [|reflexivity].
        unfold attach_events. rewrite forallb_app.
        destruct (service_is_AppT c0); [rewrite attach_calls_no_start|];
          reflexivity.
      * unfold call_failed in H.
        apply (cut_after is_start_invoke) in H;
          [| apply before_start_no_start | reflexivity].
        destruct H as [(-> & Hx & ->) | (b2 & _ & H)].
        -- injection Hx as ->. now exists pre0, post0.
        -- destruct b2 as [|y b2]; [discriminate|].
           injection H as _ H. now destruct b2.
Qed.

Lemma service_starts_app a b :
  service_starts (a ++ b) = service_starts a ++ service_starts b.
Proof. apply filter_app. Qed.

Lemma service_starts_before_start w c : service_starts (before_start w c) = [].
Proof.
  apply filter_none. unfold before_start, attach_events.
  rewrite forallb_app.
  destruct (service_is_AppT c); [|reflexivity].
  unfold attach_calls. rewrite forallb_flat_map; reflexivity.
Qed.

Lemma service_starts_blocks w l :
  service_starts (flat_map (start_block w) l) = service_start_events l.
Proof.
  induction l as [|x l IH]; simpl; [reflexivity|].
  unfold start_block at 1.
  rewrite !service_starts_app, service_starts_before_start, IH.
  reflexivity.
Qed.

(** ** start, step by step *)

Lemma start_inv w E st st' r :
  start w E st = (st', r) ->
  exists st1 r1,
    (if restart_count st =? 0
     then on_first_start w E st = (st1, r1)
     else st1 = st /\ r1 = Ok tt) /\
    match r1 with
    | Ok _ =>
        exists st2 r2, on_start w E st1 = (st2, r2) /\
          match r2 with
          | Ok _ => r = Ok tt /\
                    st' = set_restart_count (S (restart_count st2)) st2
          | _ => r = r2 /\ st' = st2
          end
    | _ => r = r1 /\ st' = st1
    end.
Proof.
  unfold start, Service_start, bind, gets, modify. intros H.
  destruct (restart_count st =? 0).
  - destruct (on_first_start w E st) as [st1 r1]. exists st1, r1.
    split; [reflexivity|].
    destruct r1 as [[]|e|]; [|inversion H; now subst..].
    destruct (on_start w E st1) as [st2 r2]. exists st2, r2.
    split; [reflexivity|].
    destruct r2 as [[]|e|]; inversion H; now subst.
  - exists st, (Ok tt). split; [now split|]. unfold ret in H.
    destruct (on_start w E st) as [st2 r2]. exists st2, r2.
    split; [reflexivity|].
    destruct r2 as [[]|e|]; inversion H; now subst.
Qed.

Lemma on_start_in_list_order w E st st' r :
  on_start w E st = (st', r) -> started_in_list_order w st st' r.
Proof.
  intros H. apply on_start_runs in H. destruct H as (evs & -> & Hrun).
  split.
  - intros ->. inversion Hrun; subst. rewrite trace_extend.
    unfold on_start_events.
    rewrite !service_starts_app, service_starts_blocks. reflexivity.
  - intros before c after H. rewrite trace_extend in H.
    apply app_inv_head in H.
    destruct (on_start_cut _ _ _ _ _ _ Hrun H) as (pre & post & Hs & ->).
    exists pre, post. split; [assumption|].
    rewrite !service_starts_app, service_starts_blocks,
      service_starts_before_start, app_nil_r. reflexivity.
Qed.

(** What [start] adds: first what the one-time initialization adds, if
    it runs, which starts no component, then what [on_start] adds, if it
    is reached. *)
Lemma start_runs w E st st' r :
  start w E st = (st', r) ->
  exists evs0,
    forallb (fun ev => negb (is_service_start ev)) evs0 = true /\
    ((exists r2 evs,
        on_start_run w r2 evs /\
        trace st' = trace st ++ evs0 ++ evs /\
        (r = Ok tt -> r2 = Ok tt)) \/
     (trace st' = trace st ++ evs0 /\ r <> Ok tt)).
Proof.
  intros H. apply start_inv in H. destruct H as (st1 & r1 & H1 & H).
  assert (Hfs : exists evs0, st1 = extend evs0 st /\
                  forallb (fun ev => negb (is_service_start ev)) evs0 = true).
  { destruct (restart_count st =? 0).
    - now apply on_first_start_no_service_start in H1.
    - destruct H1 as [-> _]. exists []. now rewrite extend_nil. }
  destruct Hfs as (evs0 & -> & H0). exists evs0. split; [assumption|].
  destruct r1 as [[]|e|].
  - destruct H as (st2 & r2 & H2 & H).
    apply on_start_runs in H2. destruct H2 as (evs & -> & Hrun).
    left. exists r2, evs. split; [assumption|].
    destruct r2 as [[]|e|]; destruct H as [-> ->]; split;
      try reflexivity; try discriminate;
      simpl; now rewrite app_assoc.
  - destruct H as [-> ->]. right. now split.
  - destruct H as [-> ->]. right. now split.
Qed.

Lemma no_service_start_no_invoke evs :
  forallb (fun ev => negb (is_service_start ev)) evs = true ->
  forallb (fun ev => negb (is_start_invoke ev)) evs = true.
Proof.
  rewrite !forallb_forall. intros H z Hz. specialize (H z Hz).
  destruct z as [[]| | | | ]; simpl in *; congruence.
Qed.

(** C1.  [start()], through the [on_start] of the Worker, invokes the
    [maybe_start] of the components strictly in list order: when it
    returns, the component starts it made are exactly one completed
    [maybe_start] per component, in the order of the list; and in every
    run, failed or not, when the [maybe_start] of a component is
    initiated the [maybe_start] of each component before it in the list
    has been initiated and has returned, and no other was. *)
Theorem start_invokes_in_list_order w E st st' r :
  (on_start w E st = (st', r) -> started_in_list_order w st st' r) /\
  (start w E st = (st', r) -> started_in_list_order w st st' r).
Proof.
  split; [apply on_start_in_list_order|].
  intros H. apply start_runs in H.
  destruct H as (evs0 & H0 & [(r2 & evs & Hrun & Ht & Hr) | [Ht Hr]]).
  - split.
    + intros Hrr. rewrite (Hr Hrr) in Hrun. inversion Hrun; subst.
      rewrite Ht. unfold on_start_events.
      rewrite !service_starts_app, service_starts_blocks.
      unfold service_starts at 2. rewrite (filter_none _ _ H0).
      reflexivity.
    + intros before c after Hb. rewrite Ht in Hb.
      apply app_inv_head in Hb.
      apply (cut_second is_start_invoke) in Hb;
        [|now apply no_service_start_no_invoke|reflexivity].
      destruct Hb as (b & -> & Hb).
      destruct (on_start_cut _ _ _ _ _ _ Hrun Hb) as (pre & post & Hs & ->).
      exists pre, post. split; [assumption|].
      rewrite !service_starts_app, service_starts_blocks,
        service_starts_before_start, app_nil_r.
      unfold service_starts at 1. rewrite (filter_none _ _ H0).
      reflexivity.
  - split; [intros Hrr; now elim Hr|].
    intros before c after Hb. rewrite Ht in Hb.
    apply app_inv_head in Hb. exfalso. revert Hb.
    apply (no_cut is_start_invoke); [|reflexivity].
    now apply no_service_start_no_invoke.
Qed.

Lemma start_invokes_in_list_order_witness :
  started_in_list_order worker_AB the_world
    (fst (start worker_AB calm the_world)) (Ok tt).
Proof.
  apply (proj2 (start_invokes_in_list_order worker_AB calm the_world
                  (fst (start worker_AB calm the_world)) (Ok tt))).
  reflexivity.
Defined.

(** ** Stop order *)

Lemma filter_all {X} (p : X -> bool) l :
  forallb p l = true -> filter p l = l.
Proof.
  induction l as [|x l IH]; simpl; [reflexivity|].
  intros H. apply andb_true_iff in H. destruct H as [-> Hl].
  now rewrite IH.
Qed.

Lemma service_stop_events_app a b :
  service_stop_events (a ++ b) = service_stop_events a ++ service_stop_events b.
Proof. apply filter_app. Qed.

Lemma service_stop_events_stops l :
  service_stop_events (service_stops l) = service_stops l.
Proof. apply filter_all. apply forallb_flat_map. reflexivity. Qed.

Lemma service_stops_no_sensor l :
  forallb (fun ev => negb (is_sensor_stop_invoke ev)) (service_stops l) = true.
Proof. apply forallb_flat_map. reflexivity. Qed.

Lemma sensor_stops_no_service l :
  forallb (fun ev => negb (is_service_stop ev)) (sensor_stops l) = true.
Proof. apply forallb_flat_map. reflexivity. Qed.

Lemma forallb_prefix {X} (p : X -> bool) l a b :
  forallb p l = true -> l = a ++ b -> forallb p a = true.
Proof.
  intros H ->. rewrite forallb_app in H.
  now apply andb_true_iff in H.
Qed.

(** Whatever the outcome of [on_stop], when it initiates the stop of a
    sensor it has stopped every component, last to first. *)
Lemma on_stop_cut w r evs before s after :
  on_stop_run w r evs ->
  evs = before ++ Invoke (c_sensor_stop s) :: after ->
  service_stop_events before = service_stops (rev (services w)).
Proof.
  intros Hrun H.
  assert (Hmain : forall tail,
    forallb (fun ev => negb (is_service_stop ev)) tail = true ->
    call_ok (title "stopping") ++ service_stops (rev (services w)) ++ tail
    = before ++ Invoke (c_sensor_stop s) :: after ->
    service_stop_events before = service_stops (rev (services w))).
  { intros tail Ht Hc.
    apply (cut_second is_sensor_stop_invoke) in Hc; [|reflexivity|reflexivity].
    destruct Hc as (b & -> & Hc).
    apply (cut_second is_sensor_stop_invoke) in Hc;
      [|apply service_stops_no_sensor|reflexivity].
    destruct Hc as (b' & -> & Hc).
    rewrite !service_stop_events_app, service_stop_events_stops.
    unfold service_stop_events at 2.
    rewrite (filter_none _ b' (forallb_prefix _ _ _ _ Ht Hc)).
    now rewrite app_nil_r. }
  destruct Hrun as [|e|pre c post e Hl|pre s0 post e Hl].
  - apply (Hmain (sensor_stops (sensors w))); [|exact H].
    apply sensor_stops_no_service.
  - exfalso. revert H. apply (no_cut is_sensor_stop_invoke); reflexivity.
  - exfalso. revert H. apply (no_cut is_sensor_stop_invoke); [|reflexivity].
    rewrite !forallb_app, service_stops_no_sensor. reflexivity.
  - apply (Hmain (sensor_stops pre ++ call_failed (c_sensor_stop s0) e));
      [|exact H].
    rewrite forallb_app, sensor_stops_no_service. reflexivity.
Qed.

Lemma on_stop_in_reverse_order w E st st' r :
  on_stop w E st = (st', r) -> stopped_in_reverse_order w st st' r.
Proof.
  intros H. apply on_stop_runs in H. destruct H as (evs & -> & Hrun).
  split.
  - intros ->. inversion Hrun; subst. reflexivity.
  - intros before s after H. rewrite trace_extend in H.
    apply app_inv_head in H. now apply (on_stop_cut _ _ _ _ _ _ Hrun H).
Qed.

(** [stop] is [on_stop] and then the stop flag, which is set only when
    [on_stop] returned. *)
Lemma stop_inv w E st st' r :
  stop w E st = (st', r) ->
  exists st1 r1, on_stop w E st = (st1, r1) /\
    match r1 with
    | Ok _ => r = Ok tt /\ st' = set_stopped true st1
    | _ => r = r1 /\ st' = st1
    end.
Proof.
  unfold stop, Service_stop, bind, modify. intros H.
  destruct (on_stop w E st) as [st1 r1]. exists st1, r1.
  split; [reflexivity|].
  destruct r1 as [[]|e|]; inversion H; now subst.
Qed.

Lemma stop_trace w E st st' r :
  stop w E st = (st', r) ->
  exists st1, on_stop w E st = (st1, r) /\ trace st' = trace st1.
Proof.
  intros H. apply stop_inv in H. destruct H as (st1 & r1 & H1 & H).
  exists st1. destruct r1 as [[]|e|]; destruct H as [-> ->]; now split.
Qed.

(** C2.  [stop()], through the [on_stop] of the Worker, stops the
    components in exactly the reverse of the start order, each stop
    completed before the next is initiated, and stops the sensors only
    after every component stop has completed. *)
Theorem stop_invokes_in_reverse_order w E st st' r :
  (on_stop w E st = (st', r) -> stopped_in_reverse_order w st st' r) /\
  (stop w E st = (st', r) -> stopped_in_reverse_order w st st' r).
Proof.
  split; [apply on_stop_in_reverse_order|].
  intros H. apply stop_trace in H. destruct H as (st1 & H & Ht).
  apply on_stop_in_reverse_order in H. unfold stopped_in_reverse_order.
  rewrite Ht. exact H.
Qed.

Lemma stop_invokes_in_reverse_order_witness :
  stopped_in_reverse_order worker_AB the_world
    (fst (stop worker_AB calm the_world)) (Ok tt).
Proof.
  apply (proj2 (stop_invokes_in_reverse_order worker_AB calm the_world
                  (fst (stop worker_AB calm the_world)) (Ok tt))).
  reflexivity.
Defined.

(** Whatever the outcome, when [on_start] initiates the [maybe_start]
    of a component that supports sensor attachment, it has just
    completed the [add_sensor] of every sensor of the set on that
    component. *)
Lemma attached_before_each_start w E st st' r :
  (on_start w E st = (st', r) -> attached_before_start w st st') /\
  (start w E st = (st', r) -> attached_before_start w st st').
Proof.
  assert (Hcut : forall r2 evs b c after,
    on_start_run w r2 evs ->
    evs = b ++ Invoke (c_service_maybe_start c) :: after ->
    service_is_AppT c = true ->
    (exists earlier,
       b = earlier ++ attach_calls c (sensors w) ++ call_ok (title "running")) /\
    (forall s, In s (sensors w) -> In (Return (c_add_sensor c s)) b)).
  { intros r2 evs b c after Hrun Hb Happ.
    destruct (on_start_cut _ _ _ _ _ _ Hrun Hb) as (pre & post & Hs & ->).
    unfold before_start, attach_events. rewrite Happ. split.
    - exists (call_ok (title "starting") ++ flat_map (start_block w) pre).
      now rewrite <- !app_assoc.
    - intros s Hin. apply in_or_app. right. apply in_or_app. right.
      apply in_or_app. left. unfold attach_calls. apply in_flat_map.
      exists s. split; [assumption|]. simpl. auto. }
  split.
  - intros H before c after Hb Happ.
    apply on_start_runs in H. destruct H as (evs & -> & Hrun).
    rewrite trace_extend in Hb. apply app_inv_head in Hb.
    exact (Hcut _ _ _ _ _ Hrun Hb Happ).
  - intros H before c after Hb Happ. apply start_runs in H.
    destruct H as (evs0 & H0 & [(r2 & evs & Hrun & Ht & Hr) | [Ht Hr]]).
    + rewrite Ht in Hb. apply app_inv_head in Hb.
      apply (cut_second is_start_invoke) in Hb;
        [|now apply no_service_start_no_invoke|reflexivity].
      destruct Hb as (b & -> & Hb).
      destruct (Hcut _ _ _ _ _ Hrun Hb Happ) as [(earlier & ->) Hin].
      split.
      * exists (evs0 ++ earlier). now rewrite <- app_assoc.
      * intros s Hs. apply in_or_app. right. now apply Hin.
    + rewrite Ht in Hb. apply app_inv_head in Hb. exfalso. revert Hb.
      apply (no_cut is_start_invoke); [|reflexivity].
      now apply no_service_start_no_invoke.
Qed.

Lemma on_first_start_no_component w :
  adds_only (fun ev => negb (touches_components ev)) (on_first_start w).
Proof. unfold on_first_start. adds_only_calls. Qed.

(** In the events of a returning [on_start] every component of the
    list is started, and every sensor of the set is attached to every
    component that is an [AppT]. *)
Lemma on_start_events_attach w c :
  In c (services w) ->
  In (Invoke (c_service_maybe_start c)) (on_start_events w) /\
  (service_is_AppT c = true ->
   forall s, In s (sensors w) ->
     In (Invoke (c_add_sensor c s)) (on_start_events w) /\
     In (Return (c_add_sensor c s)) (on_start_events w)).
Proof.
  intros Hc.
  assert (Hblock : forall ev, In ev (start_block w c) ->
                              In ev (on_start_events w)).
  { intros ev Hev. unfold on_start_events. apply in_or_app. right.
    apply in_flat_map. now exists c. }
  split.
  - apply Hblock. unfold start_block. apply in_or_app. right. simpl. auto.
  - intros Happ s Hs.
    assert (Hatt : forall ev, In ev (call_ok (c_add_sensor c s)) ->
                              In ev (start_block w c)).
    { intros ev Hev. unfold start_block, before_start, attach_events.
      rewrite Happ. apply in_or_app. left. apply in_or_app. left.
      unfold attach_calls. apply in_flat_map. now exists s. }
    split; apply Hblock, Hatt; simpl; auto.
Qed.

Lemma on_start_attachment_made w E st st' :
  on_start w E st = (st', Ok tt) -> attachment_made w st st'.
Proof.
  intros H. apply on_start_runs in H. destruct H as (evs & -> & Hrun).
  inversion Hrun; subst. exists []. split; [reflexivity|].
  split; [reflexivity|]. intros c. apply on_start_events_attach.
Qed.

Lemma start_attachment_made w E st st' :
  start w E st = (st', Ok tt) -> attachment_made w st st'.
Proof.
  intros H. apply start_inv in H. destruct H as (st1 & r1 & H1 & H).
  assert (Hfs : exists evs0,
            st1 = extend evs0 st /\
            forallb (fun ev => negb (touches_components ev)) evs0 = true).
  { destruct (restart_count st =? 0).
    - now apply on_first_start_no_component in H1.
    - destruct H1 as [-> _]. exists []. now rewrite extend_nil. }
  destruct Hfs as (evs0 & -> & H0).
  destruct r1 as [[]|e1|]; [|destruct H as [H _]; discriminate..].
  destruct H as (st2 & r2 & H2 & H).
  apply on_start_runs in H2. destruct H2 as (evs & -> & Hrun).
  destruct r2 as [[]|e2|]; [|destruct H as [H _]; discriminate..].
  inversion Hrun; subst. destruct H as [_ ->].
  exists evs0. split.
  - cbn [trace set_restart_count extend]. now rewrite <- app_assoc.
  - split; [assumption|]. intros c. apply on_start_events_attach.
Qed.

(** C3.  For every component that supports sensor attachment and every
    sensor of the set, [on_start], and so [start()], makes the
    [add_sensor] call before the [maybe_start] of that component, and
    makes it anew for every such component of the list: a run that
    returns added exactly, for each component in order, the completed
    [add_sensor] of every sensor, then the title and the completed
    start; and in every run, failed or not, what precedes the initiation
    of such a start ends with the completed [add_sensor] of every
    sensor on that component. *)
Theorem sensors_attached_before_start w E st st' r :
  (on_start w E st = (st', r) -> sensors_attached w st st' r) /\
  (start w E st = (st', r) -> sensors_attached w st st' r).
Proof.
  split; intros H; split.
  - exact (proj1 (attached_before_each_start w E st st' r) H).
  - intros ->. now apply on_start_attachment_made in H.
  - exact (proj2 (attached_before_each_start w E st st' r) H).
  - intros ->. now apply start_attachment_made in H.
Qed.

Lemma sensors_attached_before_start_witness :
  sensors_attached worker_AB the_world
    (fst (start worker_AB calm the_world)) (Ok tt).
Proof.
  apply (proj2 (sensors_attached_before_start worker_AB calm the_world
                  (fst (start worker_AB calm the_world)) (Ok tt))).
  vm_compute. reflexivity.
Defined.

(** ** Failing stops *)

Lemma not_in_when_none {X} (p : X -> bool) l x :
  forallb (fun y => negb (p y)) l = true -> p x = true -> ~ In x l.
Proof.
  intros H Hx Hin. rewrite forallb_forall in H. specialize (H x Hin).
  rewrite Hx in H. discriminate.
Qed.

Lemma service_stops_not_raised l :
  forallb (fun ev => negb (is_raised ev)) (service_stops l) = true.
Proof. apply forallb_flat_map. reflexivity. Qed.

Lemma sensor_stops_not_raised l :
  forallb (fun ev => negb (is_raised ev)) (sensor_stops l) = true.
Proof. apply forallb_flat_map. reflexivity. Qed.

Lemma on_stop_fails_fast w E st st' r :
  on_stop w E st = (st', r) -> stop_fails_fast w st st' r.
Proof.
  intros H new c e Ht Hin.
  apply on_stop_runs in H. destruct H as (evs & -> & Hrun).
  rewrite trace_extend in Ht. apply app_inv_head in Ht. subst new.
  destruct Hrun as [|e0|pre c0 post e0 Hl|pre s0 post e0 Hl].
  - exfalso. revert Hin. apply (not_in_when_none is_raised); [|reflexivity].
    unfold on_stop_events.
    now rewrite !forallb_app, service_stops_not_raised,
      sensor_stops_not_raised.
  - exfalso. simpl in Hin. destruct Hin as [Hin|[Hin|[]]]; discriminate.
  - apply in_app_or in Hin. destruct Hin as [Hin|Hin].
    { exfalso. simpl in Hin. destruct Hin as [Hin|[Hin|[]]]; discriminate. }
    apply in_app_or in Hin. destruct Hin as [Hin|Hin].
    { exfalso. revert Hin.
      apply (not_in_when_none is_raised);
        [apply service_stops_not_raised|reflexivity]. }
    simpl in Hin. destruct Hin as [Hin|[Hin|[]]]; [discriminate|].
    injection Hin as -> ->.
    split; [reflexivity|]. split; [reflexivity|]. split.
    + now exists pre, post.
    + intros s. apply (not_in_when_none is_sensor_stop_invoke); [|reflexivity].
      now rewrite !forallb_app, service_stops_no_sensor.
  - exfalso. apply in_app_or in Hin. destruct Hin as [Hin|Hin].
    { simpl in Hin. destruct Hin as [Hin|[Hin|[]]]; discriminate. }
    apply in_app_or in Hin. destruct Hin as [Hin|Hin].
    { revert Hin. apply (not_in_when_none is_raised);
        [apply service_stops_not_raised|reflexivity]. }
    apply in_app_or in Hin. destruct Hin as [Hin|Hin].
    { revert Hin. apply (not_in_when_none is_raised);
        [apply sensor_stops_not_raised|reflexivity]. }
    simpl in Hin. destruct Hin as [Hin|[Hin|[]]]; discriminate.
Qed.

(** C7.  Once the [stop] of a component raises during teardown, the
    components not yet stopped and all the sensors are skipped, and the
    caller of [on_stop], and so of [stop()], gets that very exception:
    nothing catches it, wraps it or tries again. *)
Theorem stop_failure_skips_the_rest w E st st' r :
  (on_stop w E st = (st', r) -> stop_fails_fast w st st' r) /\
  (stop w E st = (st', r) -> stop_fails_fast w st st' r).
Proof.
  split; [apply on_stop_fails_fast|].
  intros H new c e Ht Hin.
  apply stop_inv in H. destruct H as (st1 & r1 & H1 & H).
  pose proof (on_stop_fails_fast _ _ _ _ _ H1) as Hff.
  assert (Ht1 : trace st' = trace st1).
  { destruct r1 as [[]|e1|]; destruct H as [_ ->]; reflexivity. }
  rewrite Ht1 in Ht.
  destruct (Hff new c e Ht Hin) as (-> & Hs & Hnew & Hno).
  destruct H as [-> ->]. repeat split; assumption.
Qed.

Lemma stop_failure_skips_the_rest_witness :
  stop_fails_fast worker_AB the_world
    (fst (stop worker_AB stop_of_A_raises the_world)) (Raise boom).
Proof.
  apply (proj2 (stop_failure_skips_the_rest worker_AB stop_of_A_raises
                  the_world
                  (fst (stop worker_AB stop_of_A_raises the_world))
                  (Raise boom))).
  reflexivity.
Defined.

(** ** The one-time initialization *)

Lemma bind_inv {A B} (m : M A) (k : A -> M B) E st st' r :
  bind m k E st = (st', r) ->
  exists st1 r1, m E st = (st1, r1) /\
    match r1 with
    | Ok a => k a E st1 = (st', r)
    | Raise e => r = Raise e /\ st' = st1
    | OutOfFuel => r = OutOfFuel /\ st' = st1
    end.
Proof.
  unfold bind. intros H. destruct (m E st) as [st1 r1]. exists st1, r1.
  split; [reflexivity|]. destruct r1; [assumption|inversion H; now subst..].
Qed.

Lemma forallb_impl {X} (p q : X -> bool) l :
  (forall x, p x = true -> q x = true) ->
  forallb p l = true -> forallb q l = true.
Proof.
  intros Hpq. rewrite !forallb_forall. intros H x Hx. auto.
Qed.

Lemma existsb_none {X} (p : X -> bool) l :
  forallb (fun x => negb (p x)) l = true -> existsb p l = false.
Proof.
  induction l as [|x l IH]; simpl; [reflexivity|].
  intros H. apply andb_true_iff in H. destruct H as [Hx Hl].
  apply negb_true_iff in Hx. now rewrite Hx, IH.
Qed.

Lemma sensors_start_adds p w :
  (forall s, p (Invoke (c_sensor_maybe_start s)) = true /\
             p (Return (c_sensor_maybe_start s)) = true /\
             forall e, p (Raised (c_sensor_maybe_start s) e) = true) ->
  adds_only p
    (for_each (sensors w) (fun sensor => do_call (c_sensor_maybe_start sensor))).
Proof.
  intros Hp. apply adds_only_for_each. intros s.
  destruct (Hp s) as (Hi & Hr & He).
  now apply adds_only_do_call.
Qed.

(** C10.  On the first start the logging setup is gated by the
    truthiness of the configured level, not by its presence:
    [setup_logging] is called exactly when the level is truthy, so with
    the integer 0 (or the empty string) for a level the setup is skipped
    although a level was supplied. *)
Theorem logging_setup_gated_by_truthiness w E st st' r :
  on_first_start w E st = (st', r) ->
  exists new,
    trace st' = trace st ++ new /\
    existsb is_setup_logging_invoke new = truthy (loglevel w) /\
    (loglevel w = LInt 0 \/ loglevel w = LStr "" ->
     loglevel w <> LNone /\ existsb is_setup_logging_invoke new = false).
Proof.
  intros H.
  assert (Hmain : exists new, trace st' = trace st ++ new /\
            existsb is_setup_logging_invoke new = truthy (loglevel w)).
  { unfold on_first_start in H.
    apply bind_inv in H. destruct H as (st1 & r1 & H1 & H).
    inversion H1; subst; clear H1.
    apply bind_inv in H. destruct H as (st2 & r2 & H2 & H).
    assert (Hsens : forall s s' r0,
      for_each (sensors w)
        (fun sensor => do_call (c_sensor_maybe_start sensor)) E s = (s', r0) ->
      exists evs, s' = extend evs s /\
                  existsb is_setup_logging_invoke evs = false).
    { intros s s' r0 Hs.
      apply (sensors_start_adds
               (fun ev => negb (is_setup_logging_invoke ev))) in Hs.
      - destruct Hs as (evs & -> & Hp). exists evs. split; [reflexivity|].
        now apply existsb_none.
      - intros s0. repeat split. }
    destruct (truthy (loglevel w)) eqn:Htr.
    - apply do_call_cases in H2.
      destruct H2 as [[-> ->] | (e & -> & ->)].
      + apply Hsens in H. destruct H as (evs & -> & Hn).
        eexists. split.
        * simpl. rewrite <- !app_assoc. reflexivity.
        * simpl. reflexivity.
      + destruct H as [-> ->]. eexists. split.
        * simpl. rewrite <- !app_assoc. reflexivity.
        * reflexivity.
    - inversion H2; subst; clear H2.
      apply Hsens in H. destruct H as (evs & -> & Hn).
      eexists. split.
      + simpl. rewrite <- !app_assoc. reflexivity.
      + simpl. exact Hn. }
  destruct Hmain as (new & Ht & Hex). exists new.
  split; [assumption|]. split; [assumption|].
  intros [Hl|Hl]; rewrite Hex, Hl; split; (discriminate || reflexivity).
Qed.

Lemma logging_setup_gated_by_truthiness_witness :
  exists new,
    trace (fst (on_first_start worker_AB calm the_world))
    = trace the_world ++ new /\
    existsb is_setup_logging_invoke new = truthy (loglevel worker_AB) /\
    (loglevel worker_AB = LInt 0 \/ loglevel worker_AB = LStr "" ->
     loglevel worker_AB <> LNone /\
     existsb is_setup_logging_invoke new = false).
Proof.
  apply (logging_setup_gated_by_truthiness worker_AB calm the_world
           (fst (on_first_start worker_AB calm the_world)) (Ok tt)).
  reflexivity.
Defined.

Lemma first_starts_app a b :
  first_starts (a ++ b) = first_starts a + first_starts b.
Proof. unfold first_starts. now rewrite filter_app, length_app. Qed.

Lemma first_starts_none evs :
  forallb (fun ev => negb (is_first_start ev)) evs = true ->
  first_starts evs = 0.
Proof. intros H. unfold first_starts. now rewrite filter_none. Qed.

Lemma lifecycle_not_first_start evs :
  forallb is_lifecycle evs = true ->
  forallb (fun ev => negb (is_first_start ev)) evs = true.
Proof.
  apply forallb_impl. intros [[]| | | | ]; simpl; congruence.
Qed.

Lemma on_first_start_counts w E st st' r :
  on_first_start w E st = (st', r) ->
  first_starts (trace st') = first_starts (trace st) + 1 /\
  restart_count st' = restart_count st.
Proof.
  unfold on_first_start. intros H.
  apply bind_inv in H. destruct H as (st1 & r1 & H1 & H).
  inversion H1; subst; clear H1.
  assert (Hrest : adds_only (fun ev => negb (is_first_start ev))
    ((if truthy (loglevel w)
      then do_call (c_setup_logging (loglevel w) (logfile w) (logformat w))
      else ret tt) ;;
     for_each (sensors w)
       (fun sensor => do_call (c_sensor_maybe_start sensor)))).
  { adds_only_calls. }
  apply Hrest in H. destruct H as (evs & -> & Hp).
  split; [|reflexivity].
  simpl. rewrite !first_starts_app, (first_starts_none _ Hp).
  change (first_starts [Enter m_on_first_start]) with 1. lia.
Qed.

Lemma on_start_counts w E st st' r :
  on_start w E st = (st', r) ->
  first_starts (trace st') = first_starts (trace st) /\
  restart_count st' = restart_count st.
Proof.
  intros H. apply on_start_adds in H. destruct H as (evs & -> & Hp).
  split; [|reflexivity].
  rewrite trace_extend, first_starts_app,
    (first_starts_none _ (lifecycle_not_first_start _ Hp)).
  lia.
Qed.

Lemma start_counts w E st st' r :
  start w E st = (st', r) ->
  first_starts (trace st')
  = first_starts (trace st) + (if restart_count st =? 0 then 1 else 0) /\
  (r = Ok tt -> restart_count st' = S (restart_count st)) /\
  (r <> Ok tt -> restart_count st' = restart_count st).
Proof.
  intros H. apply start_inv in H. destruct H as (st1 & r1 & H1 & H).
  assert (H1' : first_starts (trace st1)
                = first_starts (trace st)
                  + (if restart_count st =? 0 then 1 else 0) /\
                restart_count st1 = restart_count st).
  { destruct (restart_count st =? 0).
    - now apply on_first_start_counts in H1.
    - destruct H1 as [-> _]. split; [lia|reflexivity]. }
  destruct H1' as [Hc Hrc].
  destruct r1 as [[]|e|].
  - destruct H as (st2 & r2 & H2 & H).
    apply on_start_counts in H2. destruct H2 as [Hc2 Hrc2].
    destruct r2 as [[]|e|]; destruct H as [-> ->]; simpl;
      (split; [congruence|]); split; intros; congruence.
  - destruct H as [-> ->]. split; [assumption|]. split; congruence.
  - destruct H as [-> ->]. split; [assumption|]. split; congruence.
Qed.

Lemma stop_counts w E st st' r :
  stop w E st = (st', r) ->
  first_starts (trace st') = first_starts (trace st) /\
  restart_count st' = restart_count st.
Proof.
  intros H. apply stop_inv in H. destruct H as (st1 & r1 & H1 & H).
  apply on_stop_adds in H1. destruct H1 as (evs & -> & Hp).
  assert (Hc : first_starts (trace (extend evs st)) = first_starts (trace st)).
  { rewrite trace_extend, first_starts_app,
      (first_starts_none _ (lifecycle_not_first_start _ Hp)). lia. }
  destruct r1 as [[]|e|]; destruct H as [_ ->]; now split.
Qed.

(** ** reprlib: tuples rendered as lists *)

Lemma firstn_map_as_lists n xs :
  firstn n (map as_lists xs) = map as_lists (firstn n xs).
Proof. apply firstn_map. Qed.

Lemma _repr_iterable_as_lists sub sub' xs level l r m t :
  (forall x, sub x = sub' (as_lists x)) ->
  _repr_iterable sub xs level l r m t
  = _repr_iterable sub' (map as_lists xs) level l r m t.
Proof.
  intros Hsub. unfold _repr_iterable.
  rewrite length_map, firstn_map_as_lists, map_map.
  rewrite (map_ext _ _ Hsub). reflexivity.
Qed.

(** With [_TupleAsListRepr] a value renders as the value in which every
    tuple, at every depth, is the list of its elements. *)
Lemma repr1_as_lists level :
  forall x, repr1 _TupleAsListRepr level x
            = repr1 _TupleAsListRepr level (as_lists x).
Proof.
  induction level as [|level IH]; intros [xs|xs|s]; simpl;
    try reflexivity; unfold repr_list;
    now apply _repr_iterable_as_lists.
Qed.

Lemma _repr_tuple_as_list xs : _repr (Tuple xs) = _repr (PList xs).
Proof. reflexivity. Qed.

Lemma _repr_in_brackets xs :
  exists body, _repr (Tuple xs) = ("[" ++ body ++ "]")%string.
Proof.
  change (_repr (Tuple xs))
    with (_repr_iterable (repr1 _TupleAsListRepr 5) xs 6 "[" "]" maxlist "").
  unfold _repr_iterable.
  change (6 =? 0) with false. change (String.eqb "" "") with true.
  cbv beta iota zeta. simpl negb. rewrite andb_false_r. simpl andb.
  cbv iota. eexists. reflexivity.
Qed.

(** The base class keeps them apart. *)
Example Repr_tells_tuple_from_list :
  repr Repr (Tuple [Instance "<A>"; Instance "<B>"]) = "(<A>, <B>)" /\
  repr Repr (PList [Instance "<A>"; Instance "<B>"]) = "[<A>, <B>]" /\
  _repr (Tuple [Instance "<A>"; Instance "<B>"]) = "[<A>, <B>]".
Proof. repeat split. Qed.

(** ** The status line *)

Lemma status_line_single w c : services w = [c] -> status_line w = service_str c.
Proof. unfold status_line. now intros ->. Qed.

Lemma status_line_many w :
  List.length (services w) <> 1 -> status_line w = _repr (services_tuple w).
Proof.
  unfold status_line. destruct (services w) as [|c [|c' l]]; simpl;
    [reflexivity| |reflexivity].
  intros H. now elim H.
Qed.

(** The statement of [_stats] that prints is the print of the status
    line. *)
Lemma report_prints_status_line w :
  (if List.length (services w) =? 1
   then match nth_error (services w) 0 with
        | Some service => do_call (c_print (service_str service))
        | None => raise (mk_exn IndexError "tuple index out of range")
        end
   else do_call (c_print (_repr (services_tuple w))))
  = do_call (c_print (status_line w)).
Proof.
  unfold status_line, services_tuple.
  destruct (services w) as [|c [|c' l]]; reflexivity.
Qed.

(** *** What the reporter adds *)

Lemma same_controller_refl st : same_controller st st.
Proof. now repeat split. Qed.

Lemma same_controller_trans a b c :
  same_controller a b -> same_controller b c -> same_controller a c.
Proof.
  unfold same_controller. intros (H1 & H2 & H3 & H4) (K1 & K2 & K3 & K4).
  repeat split; congruence.
Qed.

Lemma reports_only_ret {A} w (a : A) : reports_only w (ret a).
Proof.
  intros E st st' r H. inversion H; subst. exists [].
  rewrite app_nil_r. repeat split.
Qed.

Lemma reports_only_bind {A B} w (m : M A) (k : A -> M B) :
  reports_only w m -> (forall a, reports_only w (k a)) ->
  reports_only w (bind m k).
Proof.
  intros Hm Hk E st st' r H.
  apply bind_inv in H. destruct H as (st1 & r1 & H1 & H).
  apply Hm in H1. destruct H1 as (new1 & Ht1 & Hp1 & Hs1).
  destruct r1 as [a|e|].
  - apply Hk in H. destruct H as (new2 & Ht2 & Hp2 & Hs2).
    exists (new1 ++ new2). rewrite Ht2, Ht1, <- app_assoc, forallb_app, Hp1, Hp2.
    repeat split; try reflexivity.
    all: destruct Hs1 as (? & ? & ? & ?), Hs2 as (? & ? & ? & ?); congruence.
  - destruct H as [-> ->]. now exists new1.
  - destruct H as [-> ->]. now exists new1.
Qed.

Lemma reports_only_do_call w c :
  is_report_call w c = true -> reports_only w (do_call c).
Proof.
  intros Hc E st st' r H. apply do_call_cases in H.
  destruct H as [[-> ->] | (e & -> & ->)]; eexists;
    (split; [reflexivity|]); simpl; rewrite Hc; repeat split.
Qed.

Lemma reports_only_observe w b : reports_only w (emit (Observe b)).
Proof.
  intros E st st' r H. inversion H; subst. exists [Observe b].
  repeat split.
Qed.

Lemma reports_only_should_stop w : reports_only w should_stop.
Proof.
  intros E st st' r H. inversion H; subst. exists [].
  rewrite app_nil_r. repeat split.
Qed.

Lemma reports_only_pass_time w d : reports_only w (pass_time d).
Proof.
  intros E st st' r H. inversion H; subst. exists [].
  simpl. rewrite app_nil_r. repeat split.
Qed.

Lemma stats_reports_only w fuel : reports_only w (_stats w fuel).
Proof.
  induction fuel as [|fuel IH].
  - intros E st st' r H. inversion H; subst. exists [].
    rewrite app_nil_r. repeat split.
  - simpl. rewrite report_prints_status_line.
    apply reports_only_bind; [apply reports_only_should_stop|]. intros b.
    apply reports_only_bind; [apply reports_only_observe|]. intros _.
    destruct b; [apply reports_only_ret|].
    apply reports_only_bind.
    { unfold sleep. apply reports_only_bind.
      - now apply reports_only_do_call.
      - intros _. apply reports_only_pass_time. }
    intros _. apply reports_only_bind.
    { apply reports_only_do_call. simpl. apply String.eqb_refl. }
    intros _. exact IH.
Qed.

(** ** The reporter and the stop flag *)

Lemma stats_at_once w E : exits_at_once w E.
Proof.
  intros fuel st Hs. simpl.
  unfold bind, should_stop, gets, emit. now rewrite Hs.
Qed.

(** One round of the reporter: either something failed in it, or the
    reporter goes on from the world the round left. *)
Lemma stats_round_inv w fuel E st st' r :
  _stats w (S fuel) E st = (st', r) -> stopped st = false ->
  exists evs st1,
    forallb (fun ev => negb (is_observed_true ev)) evs = true /\
    trace st1 = trace st ++ evs /\
    (_stats w fuel E st1 = (st', r) \/ (st' = st1 /\ exists e, r = Raise e)).
Proof.
  simpl. rewrite report_prints_status_line. intros H Hs.
  unfold bind at 1 2 in H. unfold should_stop, gets, emit in H.
  rewrite Hs in H.
  apply bind_inv in H. destruct H as (st3 & r3 & H3 & H).
  unfold sleep in H3.
  apply bind_inv in H3. destruct H3 as (st4 & r4 & H4 & H3).
  apply do_call_cases in H4.
  destruct H4 as [[-> ->] | (e & -> & ->)].
  2:{ destruct H3 as [-> ->]. destruct H as [-> ->].
      eexists _, _. split; [|split; [|right; split; [reflexivity|now exists e]]].
      2:{ simpl. rewrite <- app_assoc. reflexivity. }
      reflexivity. }
  inversion H3; subst; clear H3.
  apply bind_inv in H. destruct H as (st5 & r5 & H5 & H).
  apply do_call_cases in H5.
  destruct H5 as [[-> ->] | (e & -> & ->)].
  - eexists _, _. split; [|split; [|left; exact H]].
    2:{ simpl. rewrite <- !app_assoc. reflexivity. }
    reflexivity.
  - destruct H as [-> ->].
    eexists _, _. split; [|split; [|right; split; [reflexivity|now exists e]]].
    2:{ simpl. rewrite <- !app_assoc. reflexivity. }
    reflexivity.
Qed.

Lemma stats_silent_once_stopped w E : silent_once_stopped w E.
Proof.
  intros fuel. induction fuel as [|fuel IH];
    intros st st' r before after H Ht.
  - inversion H; subst. exfalso.
    rewrite <- (app_nil_r (trace st')) in Ht at 1.
    apply app_inv_head in Ht. now destruct before.
  - destruct (stopped st) eqn:Hs.
    + rewrite (stats_at_once w E fuel st Hs) in H. inversion H; subst.
      rewrite trace_extend in Ht. apply app_inv_head in Ht.
      destruct before as [|x before].
      * now inversion Ht.
      * exfalso. inversion Ht. now destruct before.
    + apply stats_round_inv in H; [|assumption].
      destruct H as (evs & st1 & Hp & Ht1 & [H | [-> (e & ->)]]).
      * pose proof (stats_reports_only w fuel _ _ _ _ H) as (new & Hn & _).
        rewrite Hn, Ht1, <- app_assoc in Ht. apply app_inv_head in Ht.
        apply (cut_second is_observed_true) in Ht; [|assumption|reflexivity].
        destruct Ht as (b & -> & Hb).
        apply (IH st1 st' r b after H). now rewrite Hn, Hb.
      * exfalso. rewrite Ht1 in Ht. apply app_inv_head in Ht.
        revert Ht. now apply (no_cut is_observed_true).
Qed.

(** A round in which nothing fails. *)
Lemma stats_round_ok w fuel E st :
  reporting_works E -> stopped st = false ->
  _stats w (S fuel) E st = _stats w fuel E (after_round w E st).
Proof.
  intros [Hsleep Hprint] Hs. simpl. rewrite report_prints_status_line.
  unfold bind at 1 2. unfold should_stop, gets, emit. rewrite Hs.
  unfold bind at 1. unfold sleep, bind at 1. unfold do_call at 1.
  rewrite Hsleep. unfold pass_time at 1.
  unfold bind at 1. unfold do_call at 1. rewrite Hprint.
  f_equal. unfold after_round, report_round, call_ok, log,
    set_clock, set_stopped. simpl.
  rewrite Hs, <- !app_assoc. reflexivity.
Qed.

Lemma stats_rounds w E t :
  stop_instant E = Some t -> reporting_works E ->
  forall k st,
    stopped st = false ->
    clock st + 5 * k < t -> t <= clock st + 5 * S k ->
    forall fuel, S k < fuel ->
      exists st',
        _stats w fuel E st = (st', Ok tt) /\
        clock st' = clock st + 5 * S k /\
        stopped st' = true /\
        trace st' = trace st ++ List.concat (repeat (report_round w) (S k))
                    ++ [Observe true].
Proof.
  intros Ht Hw k. induction k as [|k IH]; intros st Hs Hlo Hhi fuel Hf.
  - destruct fuel as [|[|fuel]]; [lia|lia|].
    rewrite (stats_round_ok w _ E st Hw Hs).
    assert (Hs1 : stopped (after_round w E st) = true).
    { simpl. rewrite Ht, Hs. simpl. apply Nat.leb_le. lia. }
    rewrite (stats_at_once w E fuel _ Hs1).
    eexists. split; [reflexivity|]. split; [simpl; lia|].
    split; [assumption|].
    change (trace (extend [Observe true] (after_round w E st)))
      with ((trace st ++ report_round w) ++ [Observe true]).
    change (List.concat (repeat (report_round w) 1))
      with (report_round w ++ []).
    now rewrite app_nil_r, <- app_assoc.
  - destruct fuel as [|fuel]; [lia|].
    rewrite (stats_round_ok w _ E st Hw Hs).
    assert (Hs1 : stopped (after_round w E st) = false).
    { simpl. rewrite Ht, Hs. simpl. apply Nat.leb_gt. lia. }
    destruct (IH (after_round w E st) Hs1) with (fuel := fuel)
      as (st' & Hrun & Hc & Hst & Htr); [simpl; lia|simpl; lia|lia|].
    exists st'. split; [assumption|]. split; [rewrite Hc; simpl; lia|].
    split; [assumption|]. rewrite Htr.
    change (trace (after_round w E st)) with (trace st ++ report_round w).
    change (List.concat (repeat (report_round w) (S (S k))))
      with (report_round w ++ List.concat (repeat (report_round w) (S k))).
    now rewrite <- !app_assoc.
Qed.

Lemma stats_reports w : reports w (status_line w).
Proof.
  split; [|split].
  - intros fuel E st st' r Hw Hs H.
    rewrite (stats_round_ok w fuel E st Hw Hs) in H.
    apply stats_reports_only in H. destruct H as (new & Hn & _).
    exists new. rewrite Hn.
    change (trace (after_round w E st)) with (trace st ++ report_round w).
    unfold report_round, report_of. now rewrite <- !app_assoc.
  - intros E t k st fuel Ht Hw Hs Hlo Hhi Hf.
    destruct (stats_rounds w E t Ht Hw k st Hs Hlo Hhi fuel Hf)
      as (st' & Hrun & _ & _ & Htr).
    exists st'. now split.
  - intros fuel E st st' r s before after H Ht.
    apply stats_reports_only in H. destruct H as (new & Hn & Hp & _).
    rewrite Hn in Ht. apply app_inv_head in Ht. subst new.
    rewrite forallb_app in Hp. apply andb_true_iff in Hp.
    destruct Hp as [_ Hp]. simpl in Hp. apply andb_true_iff in Hp.
    destruct Hp as [Hp _]. now apply String.eqb_eq in Hp.
Qed.

(** C8.  Each periodic status report of [_stats] prints, after five
    seconds of sleep, the component itself when exactly one is managed,
    and otherwise the tuple of components in the list-like form, in
    which a tuple and the list of the same elements are rendered alike,
    in brackets; a run makes one such report per interval, and prints
    nothing else. *)
Theorem status_report_rendering w :
  status_reports w /\
  status_rendering w /\
  (forall xs, _repr (Tuple xs) = _repr (PList xs)) /\
  (forall x, _repr x = _repr (as_lists x)).
Proof.
  split; [|split; [|split]].
  - split.
    + intros c Hc. rewrite <- (status_line_single w c Hc).
      apply stats_reports.
    + intros H. split; [|split].
      * rewrite <- (status_line_many w H). apply stats_reports.
      * reflexivity.
      * apply _repr_in_brackets.
  - split; [apply status_line_single|].
    intros H. split; [now apply status_line_many|]. split; [reflexivity|].
    rewrite (status_line_many w H). apply _repr_in_brackets.
  - apply _repr_tuple_as_list.
  - intros x. apply repr1_as_lists.
Qed.

Lemma status_report_rendering_witness :
  (exists st',
     _stats worker_AB 3 flag_set_at_7 idle_world = (st', Ok tt) /\
     trace st' =
       [Observe false; Invoke (c_sleep 5); Return (c_sleep 5);
        Invoke (c_print "[<A>, <B>]"); Return (c_print "[<A>, <B>]");
        Observe false; Invoke (c_sleep 5); Return (c_sleep 5);
        Invoke (c_print "[<A>, <B>]"); Return (c_print "[<A>, <B>]");
        Observe true]) /\
  (exists st',
     _stats worker_A 3 flag_set_at_7 idle_world = (st', Ok tt) /\
     trace st' =
       [Observe false; Invoke (c_sleep 5); Return (c_sleep 5);
        Invoke (c_print "A"); Return (c_print "A");
        Observe false; Invoke (c_sleep 5); Return (c_sleep 5);
        Invoke (c_print "A"); Return (c_print "A");
        Observe true]).
Proof.
  split.
  - assert (Hmany : List.length (services worker_AB) <> 1)
      by (vm_compute; discriminate).
    exact (proj1 (proj2 (proj1
             (proj2 (proj1 (status_report_rendering worker_AB)) Hmany)))
             flag_set_at_7 7 1 idle_world 3 eq_refl
             (conj (fun _ _ => eq_refl) (fun _ _ => eq_refl)) eq_refl
             ltac:(vm_compute; lia) ltac:(vm_compute; lia)
             ltac:(lia)).
  - exact (proj1 (proj2
             (proj1 (proj1 (status_report_rendering worker_A)) svc_A eq_refl))
             flag_set_at_7 7 1 idle_world 3 eq_refl
             (conj (fun _ _ => eq_refl) (fun _ _ => eq_refl)) eq_refl
             ltac:(vm_compute; lia) ltac:(vm_compute; lia)
             ltac:(lia)).
Defined.

Lemma stats_exits_within_one_interval w E : exits_within_one_interval w E.
Proof.
  intros t st Ht Hs Hlt Hw.
  pose (d := t - clock st + 4).
  pose proof (Nat.div_mod_eq d 5) as Hdiv.
  pose proof (Nat.mod_upper_bound d 5 ltac:(lia)) as Hmod.
  assert (Hk : exists k, d / 5 = S k).
  { destruct (d / 5) eqn:Hq; [|now eexists]. exfalso. subst d. lia. }
  destruct Hk as (k & Hk). rewrite Hk in Hdiv.
  exists (S k). split; [lia|]. split; [subst d; lia|].
  intros fuel Hf.
  apply (stats_rounds w E t Ht Hw k st Hs); [subst d; lia|subst d; lia|lia].
Qed.

(** C9.  The Status Reporter returns as soon as it reads the stop flag
    true: less than one reporting interval after another task has set
    it, at once when it is set already; it adds nothing to the world
    but its readings of the flag, its sleeps and its prints of the
    status line, and leaves the controller and the loop untouched; and
    in no run does a status line, or anything, follow the reading that
    found the flag true. *)
Theorem status_reporter_stops_with_the_flag w E :
  exits_within_one_interval w E /\
  exits_at_once w E /\
  (forall fuel, reports_only w (_stats w fuel)) /\
  silent_once_stopped w E.
Proof.
  split; [apply stats_exits_within_one_interval|].
  split; [apply stats_at_once|].
  split; [intros fuel; apply stats_reports_only|].
  apply stats_silent_once_stopped.
Qed.

Lemma status_reporter_stops_with_the_flag_witness :
  exists k,
    0 < k /\ 7 <= clock the_world + 5 * k < 7 + 5 /\
    forall fuel, k < fuel ->
      exists st',
        _stats worker_AB fuel flag_set_at_7 the_world = (st', Ok tt) /\
        clock st' = clock the_world + 5 * k /\
        stopped st' = true /\
        trace st' = trace the_world
                    ++ List.concat (repeat (report_round worker_AB) k)
                    ++ [Observe true].
Proof.
  apply (proj1 (status_reporter_stops_with_the_flag worker_AB flag_set_at_7)
           7 the_world).
  - reflexivity.
  - reflexivity.
  - repeat constructor.
  - split; intros; reflexivity.
Defined.

(** ** The signal handler *)


Lemma on_sigint_unfold w :
  _on_sigint w
  = (do_call (c_print INT_marker) ;;
     try_except (schedule_shutdown w) RuntimeError (ret tt)).
Proof. reflexivity. Qed.

(** [try: body / except cls: pass] *)
Lemma try_except_pass body cls E st :
  try_except body cls (ret tt) E st
  = match body E st with
    | (st', Raise e) =>
        if isinstance e cls then (st', Ok tt) else (st', Raise e)
    | x => x
    end.
Proof.
  unfold try_except. destruct (body E st) as [st' [[]|e|]]; reflexivity.
Qed.

(** The loop refuses the shutdown when it is closed and when it runs;
    in the second case the task stays scheduled. *)
Lemma schedule_shutdown_closed w E st :
  loop_closed st = true ->
  schedule_shutdown w E st = (st, Raise loop_closed_error).
Proof.
  intros H. unfold schedule_shutdown, bind, ensure_future. now rewrite H.
Qed.

Lemma schedule_shutdown_running w E st :
  loop_closed st = false -> loop_running st = true ->
  schedule_shutdown w E st
  = (set_loop_ready (loop_ready st ++ [co_stop_on_signal]) st,
     Raise loop_running_error).
Proof.
  intros Hc Hr. unfold schedule_shutdown, bind, ensure_future.
  rewrite Hc. unfold run_until_complete.
  cbn [loop_closed loop_running set_loop_ready]. now rewrite Hc, Hr.
Qed.







(** The handler suppresses more than the rejection of a re-entrant run:
    with the loop idle, the shutdown is driven at once, and the
    NotImplementedError of a component's [stop], a RuntimeError by
    inheritance, is swallowed by the handler. *)
Lemma sigint_swallows_NotImplementedError : ~ suppresses_only_reentrancy.
Proof.
  intros H.
  specialize (H worker_AB stop_of_A_not_implemented idle_world
                (fst (do_call (c_print INT_marker)
                        stop_of_A_not_implemented idle_world))
                (fst (_on_sigint worker_AB stop_of_A_not_implemented
                        idle_world))
                not_implemented).
  assert (H1 : _on_sigint worker_AB stop_of_A_not_implemented idle_world
               = (fst (_on_sigint worker_AB stop_of_A_not_implemented
                         idle_world), Raise not_implemented)).
  { apply H.
    - vm_compute. reflexivity.
    - vm_compute. reflexivity.
    - discriminate. }
  vm_compute in H1. discriminate.
Qed.

(** C6, amended.  In the signal handler a failure of the call that
    schedules the shutdown is suppressed exactly when it is an instance
    of RuntimeError: the rejection of a re-entrant run of the loop is
    one, and so is every other RuntimeError and every exception of a
    subclass; a failure of any other class leaves the handler
    unchanged. *)
Theorem sigint_suppresses_RuntimeError w E st st1 st2 e :
  do_call (c_print INT_marker) E st = (st1, Ok tt) ->
  schedule_shutdown w E st1 = (st2, Raise e) ->
  isinstance loop_running_error RuntimeError = true /\
  _on_sigint w E st
  = (st2, if isinstance e RuntimeError then Ok tt else Raise e).
Proof.
  intros H1 H2. split; [reflexivity|].
  rewrite on_sigint_unfold. unfold bind. rewrite H1.
  rewrite try_except_pass, H2.
  now destruct (isinstance e RuntimeError).
Qed.

Lemma sigint_suppresses_RuntimeError_witness :
  isinstance loop_running_error RuntimeError = true /\
  _on_sigint worker_AB stop_of_A_raises idle_world
  = (fst (_on_sigint worker_AB stop_of_A_raises idle_world),
     if isinstance boom RuntimeError then Ok tt else Raise boom).
Proof.
  apply (sigint_suppresses_RuntimeError worker_AB stop_of_A_raises idle_world
           (fst (do_call (c_print INT_marker) stop_of_A_raises idle_world))
           (fst (_on_sigint worker_AB stop_of_A_raises idle_world))
           boom).
  - vm_compute. reflexivity.
  - vm_compute. reflexivity.
Defined.

(** * Further properties *)

(** ** The one-time initialization, run by run *)

Lemma on_first_start_runs w E st st' r :
  on_first_start w E st = (st', r) ->
  exists evs, st' = extend evs st /\ on_first_start_run w r evs.
Proof.
  unfold on_first_start. intros H.
  apply bind_inv in H. destruct H as (st1 & r1 & H1 & H).
  inversion H1; subst; clear H1.
  apply bind_inv in H. destruct H as (st2 & r2 & H2 & H).
  assert (Hlog :
    (r2 = Ok tt /\ st2 = extend (logging_events w) (log (Enter m_on_first_start) st)) \/
    (exists e, r2 = Raise e /\ truthy (loglevel w) = true /\
               st2 = extend (call_failed (setup_logging_call w) e)
                            (log (Enter m_on_first_start) st))).
  { unfold logging_events. destruct (truthy (loglevel w)).
    - apply do_call_cases in H2.
      destruct H2 as [[-> ->] | (e & -> & ->)]; [now left|].
      right. now exists e.
    - inversion H2; subst. left. now rewrite extend_nil. }
  destruct Hlog as [[-> ->] | (e & -> & Htr & ->)].
  - apply for_each_call_cases in H.
    destruct H as [[-> ->] | (pre & s & post & e & Hl & -> & ->)].
    + eexists. split; [|apply first_run_ok].
      rewrite extend_extend. unfold log, extend, on_first_start_events.
      simpl. now rewrite <- !app_assoc.
    + eexists. split; [|exact (first_run_sensor_failed w pre s post e Hl)].
      rewrite extend_extend. unfold log, extend, sensor_starts.
      simpl. now rewrite <- !app_assoc.
  - destruct H as [-> ->].
    eexists. split; [|exact (first_run_logging_failed w e Htr)].
    unfold log, extend. simpl. now rewrite <- !app_assoc.
Qed.

(** ** The one-time initialization over a lifetime *)

Lemma initialization_app a b :
  initialization (a ++ b) = initialization a ++ initialization b.
Proof. apply filter_app. Qed.

Lemma on_start_no_initialization w :
  adds_only (fun ev => negb (is_initialization ev)) (on_start w).
Proof. unfold on_start, _setproctitle. adds_only_calls. Qed.

Lemma on_stop_no_initialization w :
  adds_only (fun ev => negb (is_initialization ev)) (on_stop w).
Proof. unfold on_stop, _setproctitle. adds_only_calls. Qed.

Lemma on_first_start_events_initialization w :
  initialization (on_first_start_events w) = on_first_start_events w.
Proof.
  apply filter_all. unfold on_first_start_events. simpl.
  rewrite forallb_app. apply andb_true_iff. split.
  - unfold logging_events. now destruct (truthy (loglevel w)).
  - apply forallb_flat_map. reflexivity.
Qed.

Lemma start_initialization w E : initialization_gated w E.
Proof.
  intros st st' r H. apply start_inv in H.
  destruct H as (st1 & r1 & H1 & H).
  assert (Hrest : r1 = Ok tt ->
            exists rest, trace st' = trace st1 ++ rest /\
                         initialization rest = []).
  { intros ->. destruct H as (st2 & r2 & H2 & H).
    apply on_start_no_initialization in H2. destruct H2 as (evs & -> & Hp).
    exists evs. split.
    - destruct r2 as [[]|e|]; destruct H as [_ ->]; reflexivity.
    - now apply filter_none. }
  destruct (restart_count st =? 0).
  - apply on_first_start_runs in H1. destruct H1 as (evs0 & -> & Hrun).
    destruct r1 as [[]|e|].
    + destruct (Hrest eq_refl) as (rest & Ht & Hi).
      exists (evs0 ++ rest). split.
      * rewrite Ht, trace_extend. now rewrite app_assoc.
      * exists (Ok tt), evs0, rest. now repeat split.
    + destruct H as [-> ->]. exists (evs0 ++ []). split.
      * now rewrite app_nil_r.
      * exists (Raise e), evs0, []. repeat split; [assumption|discriminate].
    + destruct H as [-> ->]. exists (evs0 ++ []). split.
      * now rewrite app_nil_r.
      * exists OutOfFuel, evs0, []. repeat split; [assumption|discriminate].
  - destruct H1 as [-> ->]. destruct (Hrest eq_refl) as (rest & Ht & Hi).
    now exists rest.
Qed.

Lemma stop_no_initialization w E st st' r :
  stop w E st = (st', r) ->
  initialization (trace st') = initialization (trace st) /\
  restart_count st' = restart_count st.
Proof.
  intros H. pose proof (stop_counts _ _ _ _ _ H) as [_ Hrc].
  split; [|assumption].
  apply stop_inv in H. destruct H as (st1 & r1 & H1 & H).
  apply on_stop_no_initialization in H1. destruct H1 as (evs & -> & Hp).
  assert (Hi : initialization (trace (extend evs st))
               = initialization (trace st)).
  { rewrite trace_extend, initialization_app.
    unfold initialization at 2. rewrite (filter_none _ _ Hp).
    apply app_nil_r. }
  destruct r1 as [[]|e|]; destruct H as [_ ->]; exact Hi.
Qed.

(** Once the counter is positive it stays so, and no call does anything
    of the one-time initialization. *)
Lemma run_op_after_start w o E st st' r :
  0 < restart_count st ->
  run_op w o E st = (st', r) ->
  initialization (trace st') = initialization (trace st) /\
  0 < restart_count st'.
Proof.
  intros Hpos H. destruct o; simpl in H.
  - pose proof (start_counts _ _ _ _ _ H) as (_ & Hok & Hko).
    apply start_initialization in H. destruct H as (new & Ht & Hn).
    destruct (restart_count st =? 0) eqn:Hz;
      [apply Nat.eqb_eq in Hz; lia|].
    split.
    + rewrite Ht, initialization_app, Hn. apply app_nil_r.
    + destruct r as [[]|e|];
        [rewrite Hok by reflexivity; lia
        | rewrite Hko by discriminate; lia ..].
  - apply stop_no_initialization in H. destruct H as [Hi Hrc].
    split; [assumption|lia].
Qed.

Lemma attempts_after_start w E ops :
  forall st,
    0 < restart_count st ->
    initialization (trace (attempts w ops E st)) = initialization (trace st).
Proof.
  induction ops as [|o ops IH]; intros st Hpos; [reflexivity|].
  simpl. destruct (run_op w o E st) as [st1 r1] eqn:H1.
  destruct (run_op_after_start _ _ _ _ _ _ Hpos H1) as [Hi Hpos1].
  simpl. now rewrite (IH st1 Hpos1).
Qed.

Lemma lifetime_after_start w E ops :
  forall st st' r,
    0 < restart_count st ->
    lifetime w ops E st = (st', r) ->
    initialization (trace st') = initialization (trace st).
Proof.
  induction ops as [|o ops IH]; intros st st' r Hpos H.
  - inversion H; now subst.
  - unfold lifetime in H. simpl in H.
    apply bind_inv in H. destruct H as (st1 & r1 & H1 & H).
    destruct (run_op_after_start _ _ _ _ _ _ Hpos H1) as [Hi Hpos1].
    destruct r1 as [[]|e|].
    + fold (lifetime w ops) in H. now rewrite (IH _ _ _ Hpos1 H).
    + destruct H as [_ ->]. exact Hi.
    + destruct H as [_ ->]. exact Hi.
Qed.

(** What a first start that returns has done of the initialization. *)
Lemma first_start_completed w E st st' :
  restart_count st = 0 ->
  start w E st = (st', Ok tt) ->
  initialization (trace st')
  = initialization (trace st) ++ on_first_start_events w /\
  0 < restart_count st'.
Proof.
  intros Hz H. pose proof (start_counts _ _ _ _ _ H) as (_ & Hok & _).
  split; [|rewrite Hok by reflexivity; lia].
  apply start_initialization in H. destruct H as (new & Ht & Hn).
  rewrite Hz in Hn. simpl in Hn.
  destruct Hn as (r1 & evs0 & rest & -> & Hrun & Hi & Hr).
  rewrite (Hr eq_refl) in Hrun. inversion Hrun; subst.
  rewrite Ht, !initialization_app, Hi,
    on_first_start_events_initialization.
  now rewrite app_nil_r.
Qed.

Lemma lifetime_once w E : once_when_every_call_completes w E.
Proof.
  intros ops. induction ops as [|o ops IH]; intros st st' Hz H Hin.
  - destruct Hin.
  - unfold lifetime in H. simpl in H.
    apply bind_inv in H. destruct H as (st1 & r1 & H1 & H).
    destruct r1 as [[]|e|]; [|destruct H as [H _]; discriminate..].
    fold (lifetime w ops) in H.
    destruct o; simpl in H1.
    + destruct (first_start_completed _ _ _ _ Hz H1) as [Hi Hpos].
      now rewrite (lifetime_after_start _ _ _ _ _ _ Hpos H).
    + apply stop_no_initialization in H1. destruct H1 as [Hi Hrc].
      destruct Hin as [Hin|Hin]; [discriminate|].
      rewrite (IH st1 st' (eq_trans Hrc Hz) H Hin). now rewrite Hi.
Qed.

(** A start of the controller with two sensors in which the start of
    the second sensor raises, then the next start: the first has
    entered the initialization, configured logging and started the
    first sensor, and left the counter at zero; the second, which
    returns, does all of it again. *)
Lemma failed_start_then_start :
  let E := sensor_T_fails_once in
  let st1 := fst (start worker_ST E the_world) in
  let st2 := attempts worker_ST [op_start; op_start] E the_world in
  snd (start worker_ST E the_world) = Raise boom /\
  restart_count st1 = 0 /\
  snd (start worker_ST E st1) = Ok tt /\
  first_starts (trace the_world) = 0 /\
  first_starts (trace st2) = 2 /\
  initialization (trace st2)
  = [Enter m_on_first_start;
     Invoke (c_setup_logging (LStr "INFO") None None);
     Return (c_setup_logging (LStr "INFO") None None);
     Invoke (c_sensor_maybe_start sensor_S);
     Return (c_sensor_maybe_start sensor_S);
     Invoke (c_sensor_maybe_start sensor_T);
     Raised (c_sensor_maybe_start sensor_T) boom;
     Enter m_on_first_start;
     Invoke (c_setup_logging (LStr "INFO") None None);
     Return (c_setup_logging (LStr "INFO") None None);
     Invoke (c_sensor_maybe_start sensor_S);
     Return (c_sensor_maybe_start sensor_S);
     Invoke (c_sensor_maybe_start sensor_T);
     Return (c_sensor_maybe_start sensor_T)].
Proof. vm_compute. repeat split. Qed.

(** The one-time initialization does not run once in a lifetime at
    most: a start that raises in it leaves the restart counter at zero,
    and the next start runs it again. *)
Lemma failed_start_runs_initialization_again : ~ runs_once_in_a_lifetime.
Proof.
  intros H.
  specialize (H worker_ST sensor_T_fails_once [op_start; op_start]
                the_world eq_refl).
  destruct failed_start_then_start as (_ & _ & _ & H0 & H2 & _).
  cbv zeta in H0, H2. rewrite H0, H2 in H. lia.
Qed.

(** C4.  The one-time initialization (configuring logging when the
    level is truthy, then [maybe_start] on every sensor) runs on a
    [start()] call if and only if the restart counter is zero at that
    call.  The counter is incremented by the starts that complete and
    by nothing else, so after a completed start the initialization is
    never run again, and it is run exactly once in a lifetime whose
    first start completes, and in one whose calls all complete; a first
    start that raises leaves the counter at zero, and the next start
    runs the initialization again. *)
Theorem first_start_gated_by_the_counter w E :
  first_start_iff_counter_zero w E /\
  initialization_gated w E /\
  counts_completed_starts w E /\
  never_again_after_a_completed_start w E /\
  once_when_the_first_start_completes w E /\
  once_when_every_call_completes w E /\
  again_after_a_failed_start w E.
Proof.
  split; [|split; [|split; [|split; [|split; [|split]]]]].
  - intros st st' r H. now apply start_counts in H.
  - apply start_initialization.
  - intros st st' r H. now apply start_counts in H.
  - intros st st' H ops. apply attempts_after_start.
    apply start_counts in H. destruct H as (_ & Hok & _).
    rewrite Hok by reflexivity. lia.
  - intros st st' Hz H ops.
    destruct (first_start_completed _ _ _ _ Hz H) as [Hi Hpos].
    now rewrite (attempts_after_start w E ops st' Hpos).
  - apply lifetime_once.
  - intros st st1 r1 st2 r2 Hz H1 Hr H2.
    pose proof (start_counts _ _ _ _ _ H1) as (Hc1 & _ & Hko).
    pose proof (start_counts _ _ _ _ _ H2) as (Hc2 & _ & _).
    assert (Hz1 : restart_count st1 = 0) by (rewrite (Hko Hr); exact Hz).
    rewrite Hz in Hc1. rewrite Hz1 in Hc2. simpl in Hc1, Hc2.
    split; [lia|].
    apply start_initialization in H2. destruct H2 as (new & Ht & Hn).
    rewrite Hz1 in Hn. simpl in Hn.
    destruct Hn as (r' & evs0 & rest & -> & Hrun & _).
    now exists r', evs0, rest.
Qed.

Lemma first_start_gated_by_the_counter_witness :
  initialization
    (trace (attempts worker_A [op_start; op_stop; op_start] calm
              (fst (start worker_A calm the_world))))
  = initialization (trace the_world)
    ++ [Enter m_on_first_start;
        Invoke (c_setup_logging (LStr "INFO") None None);
        Return (c_setup_logging (LStr "INFO") None None);
        Invoke (c_sensor_maybe_start sensor_S);
        Return (c_sensor_maybe_start sensor_S)].
Proof.
  apply (proj1 (proj2 (proj2 (proj2 (proj2
           (first_start_gated_by_the_counter worker_A calm)))))
           the_world (fst (start worker_A calm the_world))).
  - reflexivity.
  - vm_compute. reflexivity.
Defined.

Lemma started_sensors_app a b :
  started_sensors (a ++ b) = started_sensors a ++ started_sensors b.
Proof. apply flat_map_app. Qed.

Lemma started_sensors_starts l : started_sensors (sensor_starts l) = l.
Proof. induction l as [|s l IH]; simpl; [reflexivity|]. now rewrite IH. Qed.

Lemma started_sensors_logging w : started_sensors (logging_events w) = [].
Proof. unfold logging_events. now destruct (truthy (loglevel w)). Qed.

(** X1.  The first start starts each sensor of the set once, in the
    order of the set; built by the constructor from a sequence, the set
    holds each sensor of the sequence once however often it is listed,
    and none when no sequence is given. *)
Theorem first_start_starts_each_sensor_once w E st st' :
  on_first_start w E st = (st', Ok tt) ->
  exists new,
    trace st' = trace st ++ new /\
    started_sensors new = sensors w /\
    (forall svcs l dbg lvl lf fmt,
       w = __init__ svcs (Some l) dbg lvl lf fmt ->
       each_sensor_started_once l new) /\
    (forall svcs dbg lvl lf fmt,
       w = __init__ svcs None dbg lvl lf fmt -> started_sensors new = []).
Proof.
  intros H. apply on_first_start_runs in H. destruct H as (evs & -> & Hrun).
  inversion Hrun; subst. exists (on_first_start_events w).
  split; [reflexivity|].
  assert (Hs : started_sensors (on_first_start_events w) = sensors w).
  { unfold on_first_start_events. simpl.
    change (started_sensors (logging_events w ++ sensor_starts (sensors w))
            = sensors w).
    now rewrite started_sensors_app, started_sensors_logging,
      started_sensors_starts. }
  split; [assumption|]. split.
  - intros svcs l dbg lvl lf fmt ->. unfold each_sensor_started_once.
    rewrite Hs. simpl. split.
    + apply NoDup_nodup.
    + intros s. apply nodup_In.
  - intros svcs dbg lvl lf fmt ->. now rewrite Hs.
Qed.

Lemma first_start_starts_each_sensor_once_witness :
  exists new,
    trace (fst (on_first_start worker_AB calm the_world))
    = trace the_world ++ new /\
    started_sensors new = sensors worker_AB /\
    (forall svcs l dbg lvl lf fmt,
       worker_AB = __init__ svcs (Some l) dbg lvl lf fmt ->
       each_sensor_started_once l new) /\
    (forall svcs dbg lvl lf fmt,
       worker_AB = __init__ svcs None dbg lvl lf fmt ->
       started_sensors new = []).
Proof.
  apply (first_start_starts_each_sensor_once worker_AB calm the_world
           (fst (on_first_start worker_AB calm the_world))).
  reflexivity.
Defined.

(** ** Failing starts *)

Lemma on_start_no_sensor_start w :
  adds_only (fun ev => negb (is_sensor_start_raised ev)) (on_start w).
Proof. unfold on_start, _setproctitle. adds_only_calls. Qed.

Lemma logging_events_not_raised w :
  forallb (fun ev => negb (is_raised ev)) (logging_events w) = true.
Proof. unfold logging_events. now destruct (truthy (loglevel w)). Qed.

Lemma sensor_starts_not_raised l :
  forallb (fun ev => negb (is_raised ev)) (sensor_starts l) = true.
Proof. apply forallb_flat_map. reflexivity. Qed.

Lemma logging_events_no_component w :
  forallb (fun ev => negb (touches_components ev)) (logging_events w) = true.
Proof. unfold logging_events. now destruct (truthy (loglevel w)). Qed.

Lemma sensor_starts_no_component l :
  forallb (fun ev => negb (touches_components ev)) (sensor_starts l) = true.
Proof. apply forallb_flat_map. reflexivity. Qed.

Lemma raised_is_sensor_start_raised evs s e :
  forallb (fun ev => negb (is_sensor_start_raised ev)) evs = true ->
  ~ In (Raised (c_sensor_maybe_start s) e) evs.
Proof. intros H. now apply (not_in_when_none is_sensor_start_raised). Qed.

(** X2.  When the start of a sensor raises during the first start,
    [start()] raises that very exception before it has touched any
    component or the process title, the sensors after the failing one
    are not started, and the restart counter stays at zero. *)
Theorem sensor_failure_ends_start w E st st' r :
  start w E st = (st', r) -> sensor_failure_aborts_start w st st' r.
Proof.
  intros H new s e Ht Hin.
  apply start_inv in H. destruct H as (st1 & r1 & H1 & H).
  destruct (restart_count st =? 0) eqn:Hz.
  - apply Nat.eqb_eq in Hz.
    apply on_first_start_runs in H1. destruct H1 as (evs0 & -> & Hrun).
    destruct Hrun as [|e0 Htr|pre s0 post e0 Hl].
    + exfalso. destruct H as (st2 & r2 & H2 & H).
      apply on_start_no_sensor_start in H2.
      destruct H2 as (evs & -> & Hp).
      assert (Ht' : trace st' = trace st ++ on_first_start_events w ++ evs).
      { destruct r2 as [[]|e2|]; destruct H as [_ ->]; simpl;
          now rewrite <- app_assoc. }
      rewrite Ht' in Ht. apply app_inv_head in Ht. subst new.
      apply in_app_or in Hin. destruct Hin as [Hin|Hin].
      * revert Hin. apply (not_in_when_none is_raised); [|reflexivity].
        unfold on_first_start_events. simpl.
        now rewrite forallb_app, logging_events_not_raised,
          sensor_starts_not_raised.
      * revert Hin. now apply raised_is_sensor_start_raised.
    + exfalso. destruct H as [-> ->]. rewrite trace_extend in Ht.
      apply app_inv_head in Ht. subst new. simpl in Hin.
      destruct Hin as [Hin|[Hin|[Hin|[]]]]; discriminate.
    + destruct H as [-> ->]. rewrite trace_extend in Ht.
      apply app_inv_head in Ht. subst new.
      assert (Heq : s0 = s /\ e0 = e).
      { simpl in Hin. destruct Hin as [Hin|Hin]; [discriminate|].
        apply in_app_or in Hin. destruct Hin as [Hin|Hin].
        { exfalso. revert Hin.
          apply (not_in_when_none is_raised);
            [apply logging_events_not_raised|reflexivity]. }
        apply in_app_or in Hin. destruct Hin as [Hin|Hin].
        { exfalso. revert Hin.
          apply (not_in_when_none is_raised);
            [apply sensor_starts_not_raised|reflexivity]. }
        simpl in Hin. destruct Hin as [Hin|[Hin|[]]]; [discriminate|].
        now injection Hin. }
      destruct Heq as [-> ->].
      split; [reflexivity|]. split; [assumption|]. split; [assumption|].
      split.
      * simpl. now rewrite !forallb_app, logging_events_no_component,
          sensor_starts_no_component.
      * exists pre, post. split; [assumption|].
        change (started_sensors
                  (Enter m_on_first_start
                   :: logging_events w ++ sensor_starts pre
                      ++ call_failed (c_sensor_maybe_start s) e))
          with (started_sensors
                  (logging_events w ++ sensor_starts pre
                   ++ call_failed (c_sensor_maybe_start s) e)).
        now rewrite !started_sensors_app, started_sensors_logging,
          started_sensors_starts.
  - exfalso. destruct H1 as [-> ->].
    destruct H as (st2 & r2 & H2 & H).
    apply on_start_no_sensor_start in H2. destruct H2 as (evs & -> & Hp).
    assert (Ht' : trace st' = trace st ++ evs).
    { destruct r2 as [[]|e2|]; destruct H as [_ ->]; reflexivity. }
    rewrite Ht' in Ht. apply app_inv_head in Ht. subst new.
    revert Hin. now apply raised_is_sensor_start_raised.
Qed.

Lemma sensor_failure_ends_start_witness :
  sensor_failure_aborts_start worker_AB the_world
    (fst (start worker_AB sensor_start_raises the_world)) (Raise boom).
Proof.
  apply (sensor_failure_ends_start worker_AB sensor_start_raises the_world
           (fst (start worker_AB sensor_start_raises the_world))
           (Raise boom)).
  vm_compute. reflexivity.
Defined.

Lemma attach_calls_not_raised c l :
  forallb (fun ev => negb (is_raised ev)) (attach_calls c l) = true.
Proof. apply forallb_flat_map. reflexivity. Qed.

Lemma before_start_not_raised w c :
  forallb (fun ev => negb (is_raised ev)) (before_start w c) = true.
Proof.
  unfold before_start, attach_events. rewrite forallb_app.
  destruct (service_is_AppT c); [rewrite attach_calls_not_raised|];
    reflexivity.
Qed.

Lemma start_blocks_not_raised w l :
  forallb (fun ev => negb (is_raised ev)) (flat_map (start_block w) l) = true.
Proof.
  apply forallb_flat_map. intros c. unfold start_block.
  now rewrite forallb_app, before_start_not_raised.
Qed.

(** The failed component start of a run of [on_start] is its last
    event, and what comes before it is the title, the complete rounds of
    the components before it and its own round up to the start. *)
Lemma on_start_run_raised w r evs c e :
  on_start_run w r evs ->
  In (Raised (c_service_maybe_start c) e) evs ->
  r = Raise e /\
  exists pre post,
    services w = pre ++ c :: post /\
    evs = call_ok (title "starting") ++ flat_map (start_block w) pre
          ++ before_start w c ++ call_failed (c_service_maybe_start c) e.
Proof.
  intros Hrun Hin. destruct Hrun as [|e0|pre c0 post e0 fevs Hl Hf].
  - exfalso. revert Hin. apply (not_in_when_none is_raised); [|reflexivity].
    unfold on_start_events. now rewrite forallb_app, start_blocks_not_raised.
  - exfalso. simpl in Hin. destruct Hin as [Hin|[Hin|[]]]; discriminate.
  - apply in_app_or in Hin. destruct Hin as [Hin|Hin].
    { exfalso. simpl in Hin. destruct Hin as [Hin|[Hin|[]]]; discriminate. }
    apply in_app_or in Hin. destruct Hin as [Hin|Hin].
    { exfalso. revert Hin. apply (not_in_when_none is_raised);
        [apply start_blocks_not_raised|reflexivity]. }
    destruct Hf as [p s q Happ Hs | | ].
    + exfalso. apply in_app_or in Hin. destruct Hin as [Hin|Hin].
      * revert Hin. apply (not_in_when_none is_raised);
          [apply attach_calls_not_raised|reflexivity].
      * simpl in Hin. destruct Hin as [Hin|[Hin|[]]]; discriminate.
    + exfalso. apply in_app_or in Hin. destruct Hin as [Hin|Hin].
      * revert Hin. apply (not_in_when_none is_raised); [|reflexivity].
        unfold attach_events.
        destruct (service_is_AppT c0); [apply attach_calls_not_raised|reflexivity].
      * simpl in Hin. destruct Hin as [Hin|[Hin|[]]]; discriminate.
    + apply in_app_or in Hin. destruct Hin as [Hin|Hin].
      { exfalso. revert Hin. apply (not_in_when_none is_raised);
          [apply before_start_not_raised|reflexivity]. }
      simpl in Hin. destruct Hin as [Hin|[Hin|[]]]; [discriminate|].
      injection Hin as -> ->. split; [reflexivity|]. now exists pre, post.
Qed.

Lemma on_start_no_stop w :
  adds_only (fun ev => negb (is_stop_invoke ev)) (on_start w).
Proof. unfold on_start, _setproctitle. adds_only_calls. Qed.

Lemma on_first_start_no_stop w :
  adds_only (fun ev => negb (is_stop_invoke ev)) (on_first_start w).
Proof. unfold on_first_start. adds_only_calls. Qed.

Lemma on_first_start_not_raised_start w :
  adds_only (fun ev => negb (is_service_start ev) && negb (is_stop_invoke ev))
            (on_first_start w).
Proof. unfold on_first_start. adds_only_calls. Qed.

Lemma forallb_and {X} (p q : X -> bool) l :
  forallb (fun x => p x && q x) l = true ->
  forallb p l = true /\ forallb q l = true.
Proof.
  intros H. split; revert H; apply forallb_impl; intros x Hx;
    apply andb_true_iff in Hx; tauto.
Qed.

Lemma on_start_fails_fast w E st st' r :
  on_start w E st = (st', r) -> start_fails_fast w st st' r.
Proof.
  intros H new c e Ht Hin.
  pose proof (on_start_no_stop w _ _ _ _ H) as (evs' & Hst' & Hns).
  apply on_start_runs in H. destruct H as (evs & -> & Hrun).
  rewrite trace_extend in Ht. apply app_inv_head in Ht. subst new.
  assert (evs' = evs).
  { apply (f_equal trace) in Hst'. rewrite !trace_extend in Hst'.
    now apply app_inv_head in Hst'. }
  subst evs'.
  destruct (on_start_run_raised _ _ _ _ _ Hrun Hin) as (-> & pre & post & Hs & He).
  split; [reflexivity|]. split; [reflexivity|]. split; [|assumption].
  exists (call_ok (title "starting")), pre, post.
  split; [assumption|]. split; [reflexivity|]. exact He.
Qed.

(** X3.  When the [maybe_start] of a component raises, [on_start], and
    so [start()], raises that very exception at once: the components
    after it in the list are not started, nothing that was started is
    stopped, and the restart counter is not incremented. *)
Theorem component_failure_ends_start w E st st' r :
  (on_start w E st = (st', r) -> start_fails_fast w st st' r) /\
  (start w E st = (st', r) -> start_fails_fast w st st' r).
Proof.
  split; [apply on_start_fails_fast|].
  intros H new c e Ht Hin.
  apply start_inv in H. destruct H as (st1 & r1 & H1 & H).
  assert (Hfs : exists evs0,
            st1 = extend evs0 st /\
            forallb (fun ev => negb (is_service_start ev)) evs0 = true /\
            forallb (fun ev => negb (is_stop_invoke ev)) evs0 = true).
  { destruct (restart_count st =? 0).
    - apply on_first_start_not_raised_start in H1.
      destruct H1 as (evs0 & -> & Hp). apply forallb_and in Hp.
      now exists evs0.
    - destruct H1 as [-> _]. exists []. now rewrite extend_nil. }
  destruct Hfs as (evs0 & -> & H0 & H0s).
  assert (Hnr : ~ In (Raised (c_service_maybe_start c) e) evs0).
  { now apply (not_in_when_none is_service_start). }
  destruct r1 as [[]|e1|].
  - destruct H as (st2 & r2 & H2 & H).
    pose proof (on_start_fails_fast _ _ _ _ _ H2) as Hff.
    assert (Ht2 : trace st' = trace st2 /\
                  (r2 <> Ok tt -> r = r2 /\ st' = st2)).
    { destruct r2 as [[]|e2|]; destruct H as [-> ->]; split;
        try reflexivity; try (intros _; now split); intros Hne; now elim Hne. }
    destruct Ht2 as [Ht2 Hr2].
    pose proof (on_start_no_stop w _ _ _ _ H2) as (evs & Hst2 & _).
    rewrite Ht2, Hst2, !trace_extend, <- app_assoc in Ht.
    apply app_inv_head in Ht. subst new.
    apply in_app_or in Hin. destruct Hin as [Hin|Hin]; [contradiction|].
    assert (Ht3 : trace st2 = trace (extend evs0 st) ++ evs)
      by now rewrite Hst2.
    destruct (Hff evs c e Ht3 Hin)
      as (-> & Hrc & (earlier & pre & post & Hs & Hse & He) & Hns).
    destruct (Hr2 ltac:(discriminate)) as [-> ->].
    split; [reflexivity|]. split; [exact Hrc|]. split.
    + exists (evs0 ++ earlier), pre, post. split; [assumption|]. split.
      * rewrite service_starts_app, Hse.
        unfold service_starts. now rewrite (filter_none _ _ H0).
      * now rewrite He, <- app_assoc.
    + now rewrite forallb_app, H0s, Hns.
  - exfalso. destruct H as [-> ->]. rewrite trace_extend in Ht.
    apply app_inv_head in Ht. now subst new.
  - exfalso. destruct H as [-> ->]. rewrite trace_extend in Ht.
    apply app_inv_head in Ht. now subst new.
Qed.

Lemma component_failure_ends_start_witness :
  start_fails_fast worker_AB the_world
    (fst (start worker_AB start_of_A_raises the_world)) (Raise boom).
Proof.
  apply (proj2 (component_failure_ends_start worker_AB start_of_A_raises
                  the_world
                  (fst (start worker_AB start_of_A_raises the_world))
                  (Raise boom))).
  vm_compute. reflexivity.
Defined.

(** ** Which components get sensors *)

Lemma in_attach_calls c0 l c s :
  In (Invoke (c_add_sensor c s)) (attach_calls c0 l) -> c = c0 /\ In s l.
Proof.
  unfold attach_calls. intros H. apply in_flat_map in H.
  destruct H as (s0 & Hs0 & H). simpl in H.
  destruct H as [H|[H|[]]]; [|discriminate].
  injection H as -> ->. now split.
Qed.

Lemma in_before_start w c0 c s :
  In (Invoke (c_add_sensor c s)) (before_start w c0) ->
  service_is_AppT c = true /\ c = c0 /\ In s (sensors w).
Proof.
  unfold before_start, attach_events. intros H.
  apply in_app_or in H. destruct H as [H|H].
  - destruct (service_is_AppT c0) eqn:Happ; [|contradiction].
    apply in_attach_calls in H. destruct H as [-> Hs]. now repeat split.
  - simpl in H. destruct H as [H|[H|[]]]; discriminate.
Qed.

Lemma in_start_blocks w l c s :
  In (Invoke (c_add_sensor c s)) (flat_map (start_block w) l) ->
  service_is_AppT c = true /\ In c l /\ In s (sensors w).
Proof.
  intros H. apply in_flat_map in H. destruct H as (c0 & Hc0 & H).
  unfold start_block in H. apply in_app_or in H. destruct H as [H|H].
  - apply in_before_start in H. destruct H as (Happ & -> & Hs).
    now repeat split.
  - simpl in H. destruct H as [H|[H|[]]]; discriminate.
Qed.

Lemma on_start_run_attaches w r evs c s :
  on_start_run w r evs ->
  In (Invoke (c_add_sensor c s)) evs ->
  service_is_AppT c = true /\ In c (services w) /\ In s (sensors w).
Proof.
  intros Hrun Hin. destruct Hrun as [|e0|pre c0 post e0 fevs Hl Hf].
  - unfold on_start_events in Hin. apply in_app_or in Hin.
    destruct Hin as [Hin|Hin].
    { simpl in Hin. destruct Hin as [Hin|[Hin|[]]]; discriminate. }
    now apply in_start_blocks in Hin.
  - simpl in Hin. destruct Hin as [Hin|[Hin|[]]]; discriminate.
  - apply in_app_or in Hin. destruct Hin as [Hin|Hin].
    { simpl in Hin. destruct Hin as [Hin|[Hin|[]]]; discriminate. }
    apply in_app_or in Hin. destruct Hin as [Hin|Hin].
    { apply in_start_blocks in Hin. destruct Hin as (Happ & Hc & Hs).
      repeat split; try assumption. rewrite Hl. apply in_or_app. now left. }
    assert (Hc0 : In c0 (services w)).
    { rewrite Hl. apply in_or_app. right. now left. }
    destruct Hf as [p s0 q Happ Hs | | ].
    + apply in_app_or in Hin. destruct Hin as [Hin|Hin].
      * apply in_attach_calls in Hin. destruct Hin as [-> Hin].
        repeat split; try assumption. rewrite Hs. apply in_or_app. now left.
      * simpl in Hin. destruct Hin as [Hin|[Hin|[]]]; [|discriminate].
        injection Hin as -> ->. repeat split; try assumption.
        rewrite Hs. apply in_or_app. right. now left.
    + apply in_app_or in Hin. destruct Hin as [Hin|Hin].
      * assert (Hb : In (Invoke (c_add_sensor c s)) (before_start w c0)).
        { unfold before_start. apply in_or_app. now left. }
        apply in_before_start in Hb. destruct Hb as (Happ & -> & Hs).
        now repeat split.
      * simpl in Hin. destruct Hin as [Hin|[Hin|[]]]; discriminate.
    + apply in_app_or in Hin. destruct Hin as [Hin|Hin].
      * apply in_before_start in Hin. destruct Hin as (Happ & -> & Hs).
        now repeat split.
      * simpl in Hin. destruct Hin as [Hin|[Hin|[]]]; discriminate.
Qed.

Lemma on_first_start_no_attach w :
  adds_only (fun ev => negb (is_add_sensor_invoke ev)) (on_first_start w).
Proof. unfold on_first_start. adds_only_calls. Qed.

(** X4.  [on_start], and so [start()], calls [add_sensor] only on
    managed components that are [AppT], and only with sensors of the
    set: a component that is not an [AppT] never gets a sensor. *)
Theorem sensors_attached_only_to_apps w E st st' r :
  (on_start w E st = (st', r) -> attaches_only_to_apps w st st') /\
  (start w E st = (st', r) -> attaches_only_to_apps w st st').
Proof.
  split.
  - intros H new c s Ht Hin.
    apply on_start_runs in H. destruct H as (evs & -> & Hrun).
    rewrite trace_extend in Ht. apply app_inv_head in Ht. subst new.
    exact (on_start_run_attaches _ _ _ _ _ Hrun Hin).
  - intros H new c s Ht Hin.
    apply start_inv in H. destruct H as (st1 & r1 & H1 & H).
    assert (Hfs : exists evs0,
              st1 = extend evs0 st /\
              forallb (fun ev => negb (is_add_sensor_invoke ev)) evs0 = true).
    { destruct (restart_count st =? 0).
      - now apply on_first_start_no_attach in H1.
      - destruct H1 as [-> _]. exists []. now rewrite extend_nil. }
    destruct Hfs as (evs0 & -> & H0).
    assert (Hn0 : ~ In (Invoke (c_add_sensor c s)) evs0)
      by now apply (not_in_when_none is_add_sensor_invoke).
    destruct r1 as [[]|e1|].
    + destruct H as (st2 & r2 & H2 & H).
      apply on_start_runs in H2. destruct H2 as (evs & -> & Hrun).
      assert (Ht2 : trace st' = trace st ++ evs0 ++ evs).
      { destruct r2 as [[]|e2|]; destruct H as [_ ->]; simpl;
          now rewrite <- app_assoc. }
      rewrite Ht2 in Ht. apply app_inv_head in Ht. subst new.
      apply in_app_or in Hin. destruct Hin as [Hin|Hin]; [contradiction|].
      exact (on_start_run_attaches _ _ _ _ _ Hrun Hin).
    + exfalso. destruct H as [-> ->]. rewrite trace_extend in Ht.
      apply app_inv_head in Ht. now subst new.
    + exfalso. destruct H as [-> ->]. rewrite trace_extend in Ht.
      apply app_inv_head in Ht. now subst new.
Qed.

Lemma sensors_attached_only_to_apps_witness :
  attaches_only_to_apps worker_AB the_world
    (fst (start worker_AB calm the_world)).
Proof.
  apply (proj2 (sensors_attached_only_to_apps worker_AB calm the_world
                  (fst (start worker_AB calm the_world)) (Ok tt))).
  vm_compute. reflexivity.
Defined.

(** ** The process title *)

Lemma titles_set_app a b : titles_set (a ++ b) = titles_set a ++ titles_set b.
Proof. apply flat_map_app. Qed.

Lemma titles_set_attach_calls c l : titles_set (attach_calls c l) = [].
Proof. induction l as [|s l IH]; simpl; [reflexivity|]. exact IH. Qed.

Lemma titles_set_start_block w c :
  titles_set (start_block w c) = [title_text "running"].
Proof.
  unfold start_block, before_start, attach_events.
  rewrite !titles_set_app.
  destruct (service_is_AppT c); [rewrite titles_set_attach_calls|]; reflexivity.
Qed.

Lemma titles_set_start_blocks w l :
  titles_set (flat_map (start_block w) l)
  = repeat (title_text "running") (List.length l).
Proof.
  induction l as [|c l IH]; simpl; [reflexivity|].
  rewrite titles_set_app, titles_set_start_block, IH. reflexivity.
Qed.

Lemma titles_set_service_stops l : titles_set (service_stops l) = [].
Proof. induction l as [|s l IH]; simpl; [reflexivity|]. exact IH. Qed.

Lemma titles_set_sensor_stops l : titles_set (sensor_stops l) = [].
Proof. induction l as [|s l IH]; simpl; [reflexivity|]. exact IH. Qed.

(** X5.  The process title over a start and over a stop that return:
    [on_start] sets "[Faust:Worker] starting" once and then
    "[Faust:Worker] running" once per component, before that component
    is started, so with no component the title is left at "starting";
    [on_stop] sets "[Faust:Worker] stopping" once. *)
Theorem process_titles_set w E st st' :
  (on_start w E st = (st', Ok tt) ->
   exists new,
     trace st' = trace st ++ new /\
     titles_set new
     = "[Faust:Worker] starting"
       :: repeat "[Faust:Worker] running" (List.length (services w))) /\
  (on_stop w E st = (st', Ok tt) ->
   exists new,
     trace st' = trace st ++ new /\
     titles_set new = ["[Faust:Worker] stopping"]).
Proof.
  split; intros H.
  - apply on_start_runs in H. destruct H as (evs & -> & Hrun).
    inversion Hrun; subst. eexists. split; [reflexivity|].
    unfold on_start_events.
    rewrite titles_set_app, titles_set_start_blocks. reflexivity.
  - apply on_stop_runs in H. destruct H as (evs & -> & Hrun).
    inversion Hrun; subst. eexists. split; [reflexivity|].
    unfold on_stop_events.
    rewrite !titles_set_app, titles_set_service_stops,
      titles_set_sensor_stops. reflexivity.
Qed.

Lemma process_titles_set_witness :
  exists new,
    trace (fst (on_start worker_none calm the_world))
    = trace the_world ++ new /\
    titles_set new
    = "[Faust:Worker] starting"
      :: repeat "[Faust:Worker] running" (List.length (services worker_none)).
Proof.
  apply (proj1 (process_titles_set worker_none calm the_world
                  (fst (on_start worker_none calm the_world)))).
  vm_compute. reflexivity.
Defined.

(** ** A failing sensor stop *)

Lemma stopped_services_app a b :
  stopped_services (a ++ b) = stopped_services a ++ stopped_services b.
Proof. apply flat_map_app. Qed.

Lemma stopped_services_stops l : stopped_services (service_stops l) = l.
Proof. induction l as [|s l IH]; simpl; [reflexivity|]. now rewrite IH. Qed.

Lemma stopped_services_sensor_stops l :
  stopped_services (sensor_stops l) = [].
Proof. induction l as [|s l IH]; simpl; [reflexivity|]. exact IH. Qed.

Lemma on_stop_sensor_fails_fast w E st st' r :
  on_stop w E st = (st', r) -> sensor_stop_fails_fast w st st' r.
Proof.
  intros H new s e Ht Hin.
  apply on_stop_runs in H. destruct H as (evs & -> & Hrun).
  rewrite trace_extend in Ht. apply app_inv_head in Ht. subst new.
  destruct Hrun as [|e0|pre c0 post e0 Hl|pre s0 post e0 Hl].
  - exfalso. revert Hin. apply (not_in_when_none is_raised); [|reflexivity].
    unfold on_stop_events.
    now rewrite !forallb_app, service_stops_not_raised,
      sensor_stops_not_raised.
  - exfalso. simpl in Hin. destruct Hin as [Hin|[Hin|[]]]; discriminate.
  - exfalso. apply in_app_or in Hin. destruct Hin as [Hin|Hin].
    { simpl in Hin. destruct Hin as [Hin|[Hin|[]]]; discriminate. }
    apply in_app_or in Hin. destruct Hin as [Hin|Hin].
    { revert Hin. apply (not_in_when_none is_raised);
        [apply service_stops_not_raised|reflexivity]. }
    simpl in Hin. destruct Hin as [Hin|[Hin|[]]]; discriminate.
  - apply in_app_or in Hin. destruct Hin as [Hin|Hin].
    { exfalso. simpl in Hin. destruct Hin as [Hin|[Hin|[]]]; discriminate. }
    apply in_app_or in Hin. destruct Hin as [Hin|Hin].
    { exfalso. revert Hin. apply (not_in_when_none is_raised);
        [apply service_stops_not_raised|reflexivity]. }
    apply in_app_or in Hin. destruct Hin as [Hin|Hin].
    { exfalso. revert Hin. apply (not_in_when_none is_raised);
        [apply sensor_stops_not_raised|reflexivity]. }
    simpl in Hin. destruct Hin as [Hin|[Hin|[]]]; [discriminate|].
    injection Hin as -> ->.
    split; [reflexivity|]. split.
    + rewrite !stopped_services_app, stopped_services_stops,
        stopped_services_sensor_stops. simpl. now rewrite app_nil_r.
    + now exists pre, post.
Qed.

(** X6.  When the [stop] of a sensor raises during teardown, [on_stop],
    and so [stop()], raises that very exception: every component has
    been stopped by then, last to first, and the sensors after the
    failing one are left running. *)
Theorem sensor_stop_failure_skips_the_rest w E st st' r :
  (on_stop w E st = (st', r) -> sensor_stop_fails_fast w st st' r) /\
  (stop w E st = (st', r) -> sensor_stop_fails_fast w st st' r).
Proof.
  split; [apply on_stop_sensor_fails_fast|].
  intros H new s e Ht Hin.
  apply stop_trace in H. destruct H as (st1 & H & Ht1).
  rewrite Ht1 in Ht.
  exact (on_stop_sensor_fails_fast _ _ _ _ _ H new s e Ht Hin).
Qed.

Lemma sensor_stop_failure_skips_the_rest_witness :
  sensor_stop_fails_fast worker_AB the_world
    (fst (stop worker_AB sensor_stop_raises the_world)) (Raise boom).
Proof.
  apply (proj2 (sensor_stop_failure_skips_the_rest worker_AB
                  sensor_stop_raises the_world
                  (fst (stop worker_AB sensor_stop_raises the_world))
                  (Raise boom))).
  vm_compute. reflexivity.
Defined.

(** ** A start and then a stop *)

Lemma started_services_app a b :
  started_services (a ++ b) = started_services a ++ started_services b.
Proof. apply flat_map_app. Qed.

Lemma stopped_sensors_app a b :
  stopped_sensors (a ++ b) = stopped_sensors a ++ stopped_sensors b.
Proof. apply flat_map_app. Qed.

Lemma started_services_attach_calls c l :
  started_services (attach_calls c l) = [].
Proof. induction l as [|s l IH]; simpl; [reflexivity|]. exact IH. Qed.

Lemma started_services_start_blocks w l :
  started_services (flat_map (start_block w) l) = l.
Proof.
  induction l as [|c l IH]; simpl; [reflexivity|].
  unfold start_block at 1, before_start, attach_events.
  rewrite !started_services_app, IH.
  destruct (service_is_AppT c); [rewrite started_services_attach_calls|];
    reflexivity.
Qed.

Lemma started_services_logging w : started_services (logging_events w) = [].
Proof. unfold logging_events. now destruct (truthy (loglevel w)). Qed.

Lemma started_services_sensor_starts l :
  started_services (sensor_starts l) = [].
Proof. induction l as [|s l IH]; simpl; [reflexivity|]. exact IH. Qed.

Lemma started_services_service_stops l :
  started_services (service_stops l) = [].
Proof. induction l as [|s l IH]; simpl; [reflexivity|]. exact IH. Qed.

Lemma started_services_sensor_stops l :
  started_services (sensor_stops l) = [].
Proof. induction l as [|s l IH]; simpl; [reflexivity|]. exact IH. Qed.

Lemma stopped_services_attach_calls c l :
  stopped_services (attach_calls c l) = [].
Proof. induction l as [|s l IH]; simpl; [reflexivity|]. exact IH. Qed.

Lemma stopped_services_start_blocks w l :
  stopped_services (flat_map (start_block w) l) = [].
Proof.
  induction l as [|c l IH]; simpl; [reflexivity|].
  unfold start_block at 1, before_start, attach_events.
  rewrite !stopped_services_app, IH.
  destruct (service_is_AppT c); [rewrite stopped_services_attach_calls|];
    reflexivity.
Qed.

Lemma stopped_services_logging w : stopped_services (logging_events w) = [].
Proof. unfold logging_events. now destruct (truthy (loglevel w)). Qed.

Lemma stopped_services_sensor_starts l :
  stopped_services (sensor_starts l) = [].
Proof. induction l as [|s l IH]; simpl; [reflexivity|]. exact IH. Qed.

Lemma started_sensors_attach_calls c l :
  started_sensors (attach_calls c l) = [].
Proof. induction l as [|s l IH]; simpl; [reflexivity|]. exact IH. Qed.

Lemma started_sensors_start_blocks w l :
  started_sensors (flat_map (start_block w) l) = [].
Proof.
  induction l as [|c l IH]; simpl; [reflexivity|].
  unfold start_block at 1, before_start, attach_events.
  rewrite !started_sensors_app, IH.
  destruct (service_is_AppT c); [rewrite started_sensors_attach_calls|];
    reflexivity.
Qed.

Lemma started_sensors_service_stops l :
  started_sensors (service_stops l) = [].
Proof. induction l as [|s l IH]; simpl; [reflexivity|]. exact IH. Qed.

Lemma started_sensors_sensor_stops l :
  started_sensors (sensor_stops l) = [].
Proof. induction l as [|s l IH]; simpl; [reflexivity|]. exact IH. Qed.

Lemma stopped_sensors_attach_calls c l :
  stopped_sensors (attach_calls c l) = [].
Proof. induction l as [|s l IH]; simpl; [reflexivity|]. exact IH. Qed.

Lemma stopped_sensors_start_blocks w l :
  stopped_sensors (flat_map (start_block w) l) = [].
Proof.
  induction l as [|c l IH]; simpl; [reflexivity|].
  unfold start_block at 1, before_start, attach_events.
  rewrite !stopped_sensors_app, IH.
  destruct (service_is_AppT c); [rewrite stopped_sensors_attach_calls|];
    reflexivity.
Qed.

Lemma stopped_sensors_logging w : stopped_sensors (logging_events w) = [].
Proof. unfold logging_events. now destruct (truthy (loglevel w)). Qed.

Lemma stopped_sensors_sensor_starts l :
  stopped_sensors (sensor_starts l) = [].
Proof. induction l as [|s l IH]; simpl; [reflexivity|]. exact IH. Qed.

Lemma stopped_sensors_service_stops l :
  stopped_sensors (service_stops l) = [].
Proof. induction l as [|s l IH]; simpl; [reflexivity|]. exact IH. Qed.

Lemma stopped_sensors_sensor_stops l :
  stopped_sensors (sensor_stops l) = l.
Proof. induction l as [|s l IH]; simpl; [reflexivity|]. now rewrite IH. Qed.

(** The events of a first start and a stop that both returned. *)
Lemma start_then_stop_events w E st st' :
  restart_count st = 0 ->
  lifetime w [op_start; op_stop] E st = (st', Ok tt) ->
  trace st' = trace st ++ on_first_start_events w
              ++ on_start_events w ++ on_stop_events w.
Proof.
  intros Hrc H. unfold lifetime in H. simpl in H.
  apply bind_inv in H. destruct H as (st1 & r1 & H1 & H).
  destruct r1 as [[]|e|]; [|destruct H as [H _]; discriminate..].
  apply bind_inv in H. destruct H as (st2 & r2 & H2 & H).
  destruct r2 as [[]|e|]; [|destruct H as [H _]; discriminate..].
  inversion H; subst; clear H.
  apply start_inv in H1. destruct H1 as (s1 & q1 & Ha & H1).
  rewrite Hrc in Ha. simpl in Ha.
  apply on_first_start_runs in Ha. destruct Ha as (evs0 & -> & Hrun0).
  destruct q1 as [[]|e|]; [|destruct H1 as [H1 _]; discriminate..].
  inversion Hrun0; subst; clear Hrun0.
  destruct H1 as (s2 & q2 & Hb & H1).
  apply on_start_runs in Hb. destruct Hb as (evs1 & -> & Hrun1).
  destruct q2 as [[]|e|]; [|destruct H1 as [H1 _]; discriminate..].
  inversion Hrun1; subst; clear Hrun1.
  destruct H1 as [_ ->].
  apply stop_inv in H2. destruct H2 as (s3 & q3 & Hc & H2).
  apply on_stop_runs in Hc. destruct Hc as (evs2 & -> & Hrun2).
  destruct q3 as [[]|e|]; [|destruct H2 as [H2 _]; discriminate..].
  inversion Hrun2; subst; clear Hrun2.
  destruct H2 as [_ ->].
  cbn [trace set_stopped set_restart_count extend].
  now rewrite <- !app_assoc.
Qed.

(** X7.  A first [start()] and then a [stop()], both returning: the
    components started are those of the list in its order and they are
    stopped in exactly the reverse order; the sensors started are those
    of the set and they are the sensors stopped. *)
Theorem stop_undoes_start w E st st' :
  restart_count st = 0 ->
  lifetime w [op_start; op_stop] E st = (st', Ok tt) ->
  exists new,
    trace st' = trace st ++ new /\ stops_what_it_started w new.
Proof.
  intros Hrc H. apply start_then_stop_events in H; [|assumption].
  eexists. split; [exact H|].
  unfold on_first_start_events, on_start_events, on_stop_events.
  assert (Hss : started_services
            ((Enter m_on_first_start
              :: logging_events w ++ sensor_starts (sensors w))
             ++ (call_ok (title "starting")
                 ++ flat_map (start_block w) (services w))
             ++ call_ok (title "stopping")
             ++ service_stops (rev (services w))
             ++ sensor_stops (sensors w)) = services w).
  { change (Enter m_on_first_start
            :: logging_events w ++ sensor_starts (sensors w))
      with ([Enter m_on_first_start]
            ++ logging_events w ++ sensor_starts (sensors w)).
    rewrite !started_services_app, started_services_logging,
      started_services_sensor_starts, started_services_start_blocks,
      started_services_service_stops, started_services_sensor_stops.
    simpl. now rewrite app_nil_r. }
  assert (Hsn : started_sensors
            ((Enter m_on_first_start
              :: logging_events w ++ sensor_starts (sensors w))
             ++ (call_ok (title "starting")
                 ++ flat_map (start_block w) (services w))
             ++ call_ok (title "stopping")
             ++ service_stops (rev (services w))
             ++ sensor_stops (sensors w)) = sensors w).
  { change (Enter m_on_first_start
            :: logging_events w ++ sensor_starts (sensors w))
      with ([Enter m_on_first_start]
            ++ logging_events w ++ sensor_starts (sensors w)).
    rewrite !started_sensors_app, started_sensors_logging,
      started_sensors_starts, started_sensors_start_blocks,
      started_sensors_service_stops, started_sensors_sensor_stops.
    simpl. now rewrite app_nil_r. }
  split; [exact Hss|]. split; [|split; [exact Hsn|]].
  - rewrite Hss.
    change (Enter m_on_first_start
            :: logging_events w ++ sensor_starts (sensors w))
      with ([Enter m_on_first_start]
            ++ logging_events w ++ sensor_starts (sensors w)).
    rewrite !stopped_services_app, stopped_services_logging,
      stopped_services_sensor_starts, stopped_services_start_blocks,
      stopped_services_stops, stopped_services_sensor_stops.
    simpl. now rewrite app_nil_r.
  - rewrite Hsn.
    change (Enter m_on_first_start
            :: logging_events w ++ sensor_starts (sensors w))
      with ([Enter m_on_first_start]
            ++ logging_events w ++ sensor_starts (sensors w)).
    rewrite !stopped_sensors_app, stopped_sensors_logging,
      stopped_sensors_sensor_starts, stopped_sensors_start_blocks,
      stopped_sensors_service_stops, stopped_sensors_sensor_stops.
    reflexivity.
Qed.

Lemma stop_undoes_start_witness :
  exists new,
    trace (fst (lifetime worker_AB [op_start; op_stop] calm the_world))
    = trace the_world ++ new /\
    stops_what_it_started worker_AB new.
Proof.
  apply (stop_undoes_start worker_AB calm the_world
           (fst (lifetime worker_AB [op_start; op_stop] calm the_world))).
  - reflexivity.
  - vm_compute. reflexivity.
Defined.

(** ** The shutdown task and the loop *)

(** X8.  [_stop_on_signal] never returns: it raises.  It calls
    [loop.close()] only after the whole teardown has returned, so a
    failing stop leaves the loop open; once [loop.close()] has returned
    the loop is closed and the exception is SystemExit; in every other
    case the loop is as it was. *)
Theorem stop_on_signal_closes_after_teardown w E st st' r :
  _stop_on_signal w E st = (st', r) ->
  exists new,
    trace st' = trace st ++ new /\ closes_after_teardown w st st' r new.
Proof.
  unfold _stop_on_signal. intros H.
  apply bind_inv in H. destruct H as (st1 & r1 & H1 & H).
  apply stop_inv in H1. destruct H1 as (st0 & r0 & H0 & H1).
  pose proof (on_stop_adds w _ _ _ _ H0) as (evs & Hst0 & Hp).
  apply on_stop_runs in H0. destruct H0 as (evs' & -> & Hr).
  assert (evs = evs').
  { apply (f_equal trace) in Hst0. rewrite !trace_extend in Hst0.
    now apply app_inv_head in Hst0. }
  subst evs'. clear Hst0.
  assert (Hnc : forall ev, In ev evs -> is_lifecycle ev = true).
  { now apply forallb_forall. }
  assert (Hfail : forall e,
    r0 = Raise e -> r1 = r0 -> st1 = extend evs st ->
    (r = Raise e /\ st' = st1) ->
    exists new, trace st' = trace st ++ new /\
                closes_after_teardown w st st' r new).
  { intros e -> -> -> [-> ->]. exists evs. split; [reflexivity|].
    split; [now exists e|]. split; [|split].
    - intros Hin. now apply Hnc in Hin.
    - intros Hin. now apply Hnc in Hin.
    - intros _. now split. }
  destruct Hr as [|e0|pre c0 post e0 Hl|pre s0 post e0 Hl];
    try (destruct H1 as [-> ->]; eapply Hfail; try reflexivity; exact H).
  destruct H1 as [-> ->].
  apply bind_inv in H. destruct H as (st2 & r2 & H2 & H).
  unfold loop_close in H2.
  apply bind_inv in H2. destruct H2 as (st3 & r3 & H3 & H2).
  apply do_call_cases in H3.
  destruct H3 as [[-> ->] | (e & -> & ->)].
  - inversion H2; subst; clear H2. inversion H; subst; clear H.
    exists (on_stop_events w ++ call_ok c_loop_close).
    split; [simpl; now rewrite <- app_assoc|].
    split; [now eexists|]. split; [|split].
    + intros _. now exists [Return c_loop_close].
    + intros _. now repeat split.
    + intros Hn. elim Hn. apply in_or_app. right. simpl. auto.
  - destruct H2 as [-> ->]. destruct H as [-> ->].
    exists (on_stop_events w ++ call_failed c_loop_close e).
    split; [simpl; now rewrite <- app_assoc|].
    split; [now exists e|]. split; [|split].
    + intros _. now exists [Raised c_loop_close e].
    + intros Hin. exfalso. apply in_app_or in Hin.
      destruct Hin as [Hin|Hin].
      * now apply Hnc in Hin.
      * simpl in Hin. destruct Hin as [Hin|[Hin|[]]]; discriminate.
    + intros _. now split.
Qed.

Lemma stop_on_signal_closes_after_teardown_witness :
  exists new,
    trace (fst (_stop_on_signal worker_AB close_refused the_world))
    = trace the_world ++ new /\
    closes_after_teardown worker_AB the_world
      (fst (_stop_on_signal worker_AB close_refused the_world))
      (Raise (mk_exn RuntimeError "Cannot close a running event loop")) new.
Proof.
  apply (stop_on_signal_closes_after_teardown worker_AB close_refused
           the_world
           (fst (_stop_on_signal worker_AB close_refused the_world))).
  vm_compute. reflexivity.
Defined.

(** X9.  A delivery of the signal while the loop runs stops nothing by
    itself and closes nothing: when the handler returns, the shutdown
    task it created is left scheduled on the loop although
    [run_until_complete] refused to run it, unless the loop is closed,
    in which case nothing is scheduled; and when the [print] of the
    handler raises, nothing is scheduled either. *)
Theorem sigint_leaves_a_task_scheduled w E st st' r :
  loop_running st = true ->
  _on_sigint w E st = (st', r) ->
  schedules_a_shutdown st st' r.
Proof.
  intros Hrun H. rewrite on_sigint_unfold in H.
  apply bind_inv in H. destruct H as (st1 & r1 & H1 & H).
  apply do_call_cases in H1.
  destruct H1 as [[-> ->] | (e & -> & ->)].
  - rewrite try_except_pass in H. unfold schedules_a_shutdown.
    destruct (loop_closed st) eqn:Hcl.
    + rewrite schedule_shutdown_closed in H by exact Hcl.
      injection H as <- <-. now repeat split.
    + rewrite schedule_shutdown_running in H by assumption.
      injection H as <- <-. now repeat split.
  - destruct H as [-> ->]. now repeat split.
Qed.

Lemma sigint_leaves_a_task_scheduled_witness :
  schedules_a_shutdown the_world
    (fst (_on_sigint worker_AB calm the_world)) (Ok tt).
Proof.
  apply (sigint_leaves_a_task_scheduled worker_AB calm the_world
           (fst (_on_sigint worker_AB calm the_world)) (Ok tt)).
  - reflexivity.
  - vm_compute. reflexivity.
Defined.

(** ** The reporter while nothing stops *)

Lemma stats_for_ever w E :
  stop_instant E = None -> reporting_works E ->
  forall fuel st,
    stopped st = false ->
    exists st',
      _stats w fuel E st = (st', OutOfFuel) /\
      clock st' = clock st + 5 * fuel /\
      stopped st' = false /\
      trace st' = trace st ++ List.concat (repeat (report_round w) fuel).
Proof.
  intros Hn Hw fuel. induction fuel as [|fuel IH]; intros st Hs.
  - exists st. split; [reflexivity|]. split; [lia|]. split; [assumption|].
    simpl. now rewrite app_nil_r.
  - rewrite (stats_round_ok w fuel E st Hw Hs).
    assert (Hs1 : stopped (after_round w E st) = false).
    { simpl. now rewrite Hn, Hs. }
    destruct (IH _ Hs1) as (st' & Hrun & Hc & Hst & Htr).
    exists st'. split; [assumption|]. split; [rewrite Hc; simpl; lia|].
    split; [assumption|]. rewrite Htr.
    change (trace (after_round w E st)) with (trace st ++ report_round w).
    change (List.concat (repeat (report_round w) (S fuel)))
      with (report_round w ++ List.concat (repeat (report_round w) fuel)).
    now rewrite <- !app_assoc.
Qed.

(** X10.  While the stop flag is not set and no task sets it, the
    reporter never returns: however many rounds it is given it is still
    looping after them, having slept one interval and printed one
    status line in each. *)
Theorem status_reporter_runs_until_stopped w E st :
  stop_instant E = None -> reporting_works E -> stopped st = false ->
  reports_for_ever w E st.
Proof.
  intros Hn Hw Hs fuel. now apply stats_for_ever.
Qed.

Lemma status_reporter_runs_until_stopped_witness :
  reports_for_ever worker_AB never_stopped the_world.
Proof.
  apply (status_reporter_runs_until_stopped worker_AB never_stopped
           the_world).
  - reflexivity.
  - split; intros; reflexivity.
  - reflexivity.
Defined.

(** ** The status line, spelled out *)

Lemma repr1_instance cls level s :
  repr1 cls level (Instance s) = repr_instance s.
Proof. destruct level; reflexivity. Qed.

Lemma _repr_services_tuple w :
  _repr (services_tuple w)
  = _repr_iterable (repr1 _TupleAsListRepr 5)
      (map (fun s => Instance (service_repr s)) (services w)) 6
      "[" "]" maxlist "".
Proof. reflexivity. Qed.

Lemma map_repr1_instances level l :
  map (repr1 _TupleAsListRepr level)
      (map (fun s => Instance (service_repr s)) l)
  = map (fun s => repr_instance (service_repr s)) l.
Proof.
  rewrite map_map. apply map_ext. intros s. apply repr1_instance.
Qed.

(** X11.  The status line of a controller that does not manage exactly
    one component: "[]" when it manages none; the representations of
    the components, each elided in the middle when longer than thirty
    characters, separated by ", " and in brackets when there are at most
    six; and only the first six, followed by "...", when there are
    more. *)
Theorem status_line_spelled_out w :
  (services w = [] -> status_line w = "[]") /\
  (1 < List.length (services w) <= 6 ->
   status_line w
   = ("[" ++ String.concat ", " (component_reprs w) ++ "]")%string) /\
  (6 < List.length (services w) ->
   status_line w
   = ("[" ++ String.concat ", " (firstn 6 (component_reprs w) ++ ["..."])
      ++ "]")%string).
Proof.
  split; [|split].
  - intros H. rewrite status_line_many by (rewrite H; discriminate).
    unfold services_tuple. rewrite H. reflexivity.
  - intros [Hlo Hhi].
    rewrite status_line_many by lia. rewrite _repr_services_tuple.
    unfold _repr_iterable, maxlist, component_reprs.
    rewrite length_map. change (6 =? 0) with false.
    cbv beta iota zeta. simpl andb.
    replace (6 <? List.length (services w)) with false
      by (symmetry; apply Nat.ltb_ge; lia).
    rewrite firstn_all2 by (rewrite length_map; lia).
    rewrite map_repr1_instances.
    change (String.eqb "" "") with true. simpl negb.
    rewrite andb_false_r. reflexivity.
  - intros Hlo.
    rewrite status_line_many by lia. rewrite _repr_services_tuple.
    unfold _repr_iterable, maxlist, component_reprs.
    rewrite length_map. change (6 =? 0) with false.
    cbv beta iota zeta. simpl andb.
    replace (6 <? List.length (services w)) with true
      by (symmetry; apply Nat.ltb_lt; lia).
    rewrite <- firstn_map, map_repr1_instances.
    change (String.eqb "" "") with true. simpl negb.
    rewrite andb_false_r. reflexivity.
Qed.

Lemma status_line_spelled_out_witness :
  status_line worker_AB
  = ("[" ++ String.concat ", " (component_reprs worker_AB) ++ "]")%string.
Proof.
  apply (proj1 (proj2 (status_line_spelled_out worker_AB))).
  split; repeat constructor.
Defined.

(** ** A failure inside the reporter *)

Lemma report_round_not_raised w :
  forallb (fun ev => negb (is_raised ev)) (report_round w) = true.
Proof. reflexivity. Qed.

(** One round of the reporter, case by case. *)
Lemma stats_round_cases w fuel E st st' r :
  _stats w (S fuel) E st = (st', r) -> stopped st = false ->
  (exists e, r = Raise e /\
     trace st' = trace st ++ [Observe false; Invoke (c_sleep 5);
                              Raised (c_sleep 5) e]) \/
  (exists e, r = Raise e /\
     trace st' = trace st ++ Observe false :: call_ok (c_sleep 5)
                 ++ [Invoke (c_print (status_line w));
                     Raised (c_print (status_line w)) e]) \/
  (exists st1, trace st1 = trace st ++ report_round w /\
               _stats w fuel E st1 = (st', r)).
Proof.
  simpl. rewrite report_prints_status_line. intros H Hs.
  unfold bind at 1 2 in H. unfold should_stop, gets, emit in H.
  rewrite Hs in H.
  apply bind_inv in H. destruct H as (st3 & r3 & H3 & H).
  unfold sleep in H3.
  apply bind_inv in H3. destruct H3 as (st4 & r4 & H4 & H3).
  apply do_call_cases in H4.
  destruct H4 as [[-> ->] | (e & -> & ->)].
  2:{ destruct H3 as [-> ->]. destruct H as [-> ->]. left. exists e.
      split; [reflexivity|]. simpl. now rewrite <- app_assoc. }
  inversion H3; subst; clear H3.
  apply bind_inv in H. destruct H as (st5 & r5 & H5 & H).
  apply do_call_cases in H5.
  destruct H5 as [[-> ->] | (e & -> & ->)].
  - right. right. eexists. split; [|exact H].
    simpl. unfold report_round. simpl. now rewrite <- !app_assoc.
  - destruct H as [-> ->]. right. left. exists e.
    split; [reflexivity|]. simpl. now rewrite <- !app_assoc.
Qed.

(** X12.  Nothing in the reporter catches: when its sleep or its print
    raises, [_stats] raises that very exception at once, and that failed
    call is the last thing it did. *)
Theorem status_reporter_fails_fast w fuel E st st' r :
  _stats w fuel E st = (st', r) -> report_fails_fast st st' r.
Proof.
  revert st st' r. induction fuel as [|fuel IH]; intros st st' r H new c e Ht Hin.
  - inversion H; subst. exfalso.
    rewrite <- (app_nil_r (trace st')) in Ht at 1.
    apply app_inv_head in Ht. now subst new.
  - destruct (stopped st) eqn:Hs.
    + rewrite (stats_at_once w E fuel st Hs) in H. inversion H; subst.
      rewrite trace_extend in Ht. apply app_inv_head in Ht. subst new.
      exfalso. simpl in Hin. destruct Hin as [Hin|[]]. discriminate.
    + apply stats_round_cases in H; [|assumption].
      destruct H as [(e0 & -> & Ht0) | [(e0 & -> & Ht0) | (st1 & Ht1 & H)]].
      * rewrite Ht0 in Ht. apply app_inv_head in Ht. subst new.
        simpl in Hin. destruct Hin as [Hin|[Hin|[Hin|[]]]]; try discriminate.
        injection Hin as <- <-. split; [reflexivity|].
        now exists [Observe false; Invoke (c_sleep 5)].
      * rewrite Ht0 in Ht. apply app_inv_head in Ht. subst new.
        simpl in Hin.
        destruct Hin as [Hin|[Hin|[Hin|[Hin|[Hin|[]]]]]]; try discriminate.
        injection Hin as <- <-. split; [reflexivity|].
        now exists [Observe false; Invoke (c_sleep 5); Return (c_sleep 5);
                    Invoke (c_print (status_line w))].
      * pose proof (stats_reports_only w fuel _ _ _ _ H) as (new2 & Hn & _).
        rewrite Hn, Ht1, <- app_assoc in Ht. apply app_inv_head in Ht.
        subst new. apply in_app_or in Hin. destruct Hin as [Hin|Hin].
        { exfalso. revert Hin. apply (not_in_when_none is_raised);
            [apply report_round_not_raised|reflexivity]. }
        destruct (IH st1 st' r H new2 c e Hn Hin) as (-> & before & ->).
        split; [reflexivity|]. exists (report_round w ++ before).
        now rewrite <- app_assoc.
Qed.

Lemma status_reporter_fails_fast_witness :
  report_fails_fast the_world
    (fst (_stats worker_AB 3 stdout_closed the_world))
    (Raise (mk_exn OSError "Bad file descriptor")).
Proof.
  apply (status_reporter_fails_fast worker_AB 3 stdout_closed the_world
           (fst (_stats worker_AB 3 stdout_closed the_world))
           (Raise (mk_exn OSError "Bad file descriptor"))).
  vm_compute. reflexivity.
Defined.

(** ** The handler on an idle loop *)

(** The ways [_stop_on_signal] can end. *)
Lemma stop_on_signal_cases w E st st' r :
  _stop_on_signal w E st = (st', r) ->
  (exists evs e,
     on_stop_run w (Raise e) evs /\ r = Raise e /\ st' = extend evs st) \/
  (exists e,
     r = Raise e /\
     st' = extend (call_failed c_loop_close e)
                  (set_stopped true (extend (on_stop_events w) st))) \/
  (r = Raise (mk_exn SystemExit "") /\
   st' = set_loop_closed true
           (set_loop_ready []
              (extend (call_ok c_loop_close)
                      (set_stopped true (extend (on_stop_events w) st))))).
Proof.
  unfold _stop_on_signal. intros H.
  apply bind_inv in H. destruct H as (st1 & r1 & H1 & H).
  apply stop_inv in H1. destruct H1 as (st0 & r0 & H0 & H1).
  apply on_stop_runs in H0. destruct H0 as (evs & -> & Hr).
  inversion Hr; subst.
  - destruct H1 as [-> ->].
    apply bind_inv in H. destruct H as (st2 & r2 & H2 & H).
    unfold loop_close in H2.
    apply bind_inv in H2. destruct H2 as (st3 & r3 & H3 & H2).
    apply do_call_cases in H3.
    destruct H3 as [[-> ->] | (e & -> & ->)].
    + inversion H2; subst; clear H2. inversion H; subst; clear H.
      right. right. now split.
    + destruct H2 as [-> ->]. destruct H as [-> ->].
      right. left. now exists e.
  - destruct H1 as [-> ->]. destruct H as [-> ->]. left.
    eexists _, _. split; [exact Hr|]. now split.
  - destruct H1 as [-> ->]. destruct H as [-> ->]. left.
    eexists _, _. split; [exact Hr|]. now split.
  - destruct H1 as [-> ->]. destruct H as [-> ->]. left.
    eexists _, _. split; [exact Hr|]. now split.
Qed.

(** On an idle loop with nothing scheduled the loop runs the shutdown
    task at once, and [run_until_complete] ends as the task does. *)
Lemma schedule_shutdown_idle w E st :
  loop_closed st = false -> loop_running st = false -> loop_ready st = [] ->
  schedule_shutdown w E st
  = (let '(st2, r2) := _stop_on_signal w E (set_loop_running true st) in
     (set_loop_running false st2, r2)).
Proof.
  intros Hc Hr Hq. unfold schedule_shutdown, bind, ensure_future.
  rewrite Hc. unfold run_until_complete.
  cbn [loop_closed loop_running loop_ready set_loop_ready].
  rewrite Hc, Hr, Hq. cbn [app removelast for_each].
  unfold bind, ret. cbn [run_coro].
  replace (set_loop_running true
             (set_loop_ready [] (set_loop_ready [co_stop_on_signal] st)))
    with (set_loop_running true st).
  - reflexivity.
  - unfold set_loop_running, set_loop_ready. simpl. now rewrite Hq.
Qed.

Lemma on_stop_run_lifecycle w r evs :
  on_stop_run w r evs -> forallb is_lifecycle evs = true.
Proof.
  intros H. destruct H; unfold on_stop_events, service_stops, sensor_stops;
    rewrite ?forallb_app, ?forallb_flat_map; try reflexivity.
Qed.

(** X13.  The handler entered on an idle loop with nothing scheduled
    drives the shutdown itself; when [loop.close()] is then refused with
    a RuntimeError, the handler swallows it with its [except
    RuntimeError]: it returns normally after a complete teardown, every
    component and sensor stopped, with the loop still open and no
    SystemExit raised. *)
Theorem sigint_swallows_a_refused_close w E st st' r :
  loop_running st = false -> loop_closed st = false -> loop_ready st = [] ->
  _on_sigint w E st = (st', r) ->
  refused_close_is_swallowed w st st' r.
Proof.
  intros Hrun Hcl Hq H new e Ht Hin Hisr.
  rewrite on_sigint_unfold in H.
  apply bind_inv in H. destruct H as (st1 & r1 & H1 & H).
  apply do_call_cases in H1.
  destruct H1 as [[-> ->] | (e0 & -> & ->)].
  2:{ exfalso. destruct H as [-> ->]. rewrite trace_extend in Ht.
      apply app_inv_head in Ht. subst new. simpl in Hin.
      destruct Hin as [Hin|[Hin|[]]]; discriminate. }
  rewrite try_except_pass in H.
  rewrite schedule_shutdown_idle in H by assumption.
  destruct (_stop_on_signal w E _) as [st2 r2] eqn:H2.
  apply stop_on_signal_cases in H2.
  destruct H2 as [(evs & e1 & Hr & -> & ->) | [(e1 & -> & ->) | [-> ->]]].
  - exfalso.
    assert (Hnew : new = call_ok (c_print INT_marker) ++ evs).
    { destruct (isinstance e1 RuntimeError); injection H as <- <-;
        cbn [trace set_loop_running extend] in Ht;
        rewrite <- app_assoc in Ht; now apply app_inv_head in Ht. }
    subst new. apply in_app_or in Hin. destruct Hin as [Hin|Hin].
    + simpl in Hin. destruct Hin as [Hin|[Hin|[]]]; discriminate.
    + apply on_stop_run_lifecycle in Hr. rewrite forallb_forall in Hr.
      specialize (Hr _ Hin). discriminate.
  - assert (Hnew : new = call_ok (c_print INT_marker) ++ on_stop_events w
                         ++ call_failed c_loop_close e1).
    { destruct (isinstance e1 RuntimeError); injection H as <- <-;
        cbn [trace set_loop_running set_stopped extend] in Ht;
        rewrite <- !app_assoc in Ht; now apply app_inv_head in Ht. }
    assert (He : e1 = e).
    { subst new. apply in_app_or in Hin. destruct Hin as [Hin|Hin].
      { simpl in Hin. destruct Hin as [Hin|[Hin|[]]]; discriminate. }
      apply in_app_or in Hin. destruct Hin as [Hin|Hin].
      { exfalso. pose proof (on_stop_run_lifecycle w _ _ (stop_run_ok w)) as Hl.
        rewrite forallb_forall in Hl. specialize (Hl _ Hin). discriminate. }
      simpl in Hin. destruct Hin as [Hin|[Hin|[]]]; [discriminate|].
      now injection Hin. }
    subst e1. rewrite Hisr in H. injection H as <- <-.
    split; [reflexivity|]. split; [exact Hcl|].
    subst new. unfold on_stop_events. split.
    + rewrite !stopped_services_app, stopped_services_stops,
        stopped_services_sensor_stops. simpl. now rewrite ?app_nil_r.
    + rewrite !stopped_sensors_app, stopped_sensors_service_stops,
        stopped_sensors_sensor_stops. simpl. now rewrite ?app_nil_r.
  - exfalso. cbn [isinstance issubclass exn_cls mro existsb exn_class_eqb orb]
      in H.
    injection H as <- <-.
    cbn [trace set_loop_running set_loop_closed set_loop_ready set_stopped
           extend] in Ht.
    rewrite <- !app_assoc in Ht. apply app_inv_head in Ht. subst new.
    apply in_app_or in Hin. destruct Hin as [Hin|Hin].
    { simpl in Hin. destruct Hin as [Hin|[Hin|[]]]; discriminate. }
    apply in_app_or in Hin. destruct Hin as [Hin|Hin].
    { pose proof (on_stop_run_lifecycle w _ _ (stop_run_ok w)) as Hl.
      rewrite forallb_forall in Hl. specialize (Hl _ Hin). discriminate. }
    simpl in Hin. destruct Hin as [Hin|[Hin|[]]]; discriminate.
Qed.

Lemma sigint_swallows_a_refused_close_witness :
  refused_close_is_swallowed worker_AB idle_world
    (fst (_on_sigint worker_AB close_refused idle_world)) (Ok tt).
Proof.
  apply (sigint_swallows_a_refused_close worker_AB close_refused idle_world
           (fst (_on_sigint worker_AB close_refused idle_world)) (Ok tt)).
  - reflexivity.
  - reflexivity.
  - reflexivity.
  - vm_compute. reflexivity.
Defined.
